(** * The rules_k8s image resolver (k8s/go/cmd/resolver/resolver.go)

    A shallow embedding of the resolver binary: the image-spec parser, the
    publisher, the default string resolver with its memoization cache, the
    recursive walk over a decoded YAML document and the shape precedence of
    the document decoder, followed by the properties the specification
    states about them. *)

From Stdlib Require Import ZArith Ascii String.
From stdpp Require Import base gmap sets list strings.

Set Warnings "-register-all,-clear-no-such-hyp".

Local Open Scope string_scope.
Local Open Scope list_scope.

(** ** Dynamic YAML values

    A decoded document is a Go [interface{}].  The dynamic types the walk
    distinguishes are [string], [[]interface{}] and
    [map[interface{}]interface{}]; everything else (integers, booleans, the
    nil interface, and any other scalar the decoder produces such as a
    float) falls through [resolveItem] untouched.

    A Go map ranges over its entries in an order the runtime picks.  A map
    is kept here as the list of its entries in the order the [range]
    statement visits them. *)

Inductive item : Type :=
| INil
| IStr (s : string)
| IInt (n : Z)
| IBool (b : bool)
| IOther (repr : string)
| IList (l : list item)
| IMap (m : list (item * item)).

(** ** Errors

    Every [fmt.Errorf] of the source is a constructor carrying the
    arguments of its format string, in the order they are passed; the
    message is a function of those arguments and of nothing else.
    [ErrExternal] is an error handed back by a collaborator outside this
    file (registry transport, keychain, image reader, YAML decoder). *)

Inductive error : Type :=
| ErrExternal (msg : string)
  (* "digest, diffID, compressed blobs & uncompressed blobs had unequal
     lengths for image %s, got %d, %d, %d, %d, want all of the lengths to
     be equal" *)
| ErrUnequalLengths (name : string) (nDigests nDiffIDs nCompressed nUncompressed : nat)
  (* "image spec item %q split by '=' into unexpected fields, got %d, want 2" *)
| ErrSplitFields (s : string) (got : nat)
  (* "unknown image spec field %q" *)
| ErrUnknownField (field : string)
  (* "unable to convert the layer parts in image spec for %s into a single
     comma separated argument: %v" *)
| ErrLayerParts (name : string) (err : error)
  (* "unable to determine parts of the image from the specified arguments: %v" *)
| ErrImageParts (err : error)
  (* "error reading image: %v" *)
| ErrReadImage (err : error)
  (* "unable to create a docker tag from stamped name %q: %v" *)
| ErrStampedTag (n : string) (err : error)
  (* "unable to get authenticator for image %v" *)
| ErrAuthenticator (refName : string)
  (* "unable to push image %v: %v" *)
| ErrPush (refName : string) (err : error)
  (* "unable to get digest of image %v" *)
| ErrDigest (refName : string)
  (* "error resolving item %v in list: %v" *)
| ErrListItem (i : item) (err : error)
  (* "error resolving key %v in map: %v" *)
| ErrMapKey (k : item) (err : error)
  (* "error resolving value %v in map: %v" *)
| ErrMapValue (v : item) (err : error)
  (* "unable to parse given blob as a YAML list, map or string, integer or
     boolean" *)
| ErrNoShape.

(** A Go [(T, error)] return: the value is only meaningful when the error
    is nil, and every caller in this file drops it otherwise. *)

Inductive result (A : Type) : Type :=
| Ok (a : A)
| Err (e : error).

Arguments Ok {A} a.
Arguments Err {A} e.

Definition is_ok {A} (r : result A) : bool :=
  match r with Ok _ => true | Err _ => false end.

(** ** [strings.Split] and [strings.SplitN]

    Both are Go's [genSplit] with a separator that is one byte long at
    every call site of this program (";", "=" and ","), so the separator
    is an [ascii].  [genSplit sep cuts s] cuts [s] at most [cuts] times,
    left to right, and keeps the uncut remainder as the last field. *)

Fixpoint Count (sep : ascii) (s : string) : nat :=
  match s with
  | EmptyString => 0
  | String a s' => (if Ascii.eqb a sep then 1 else 0) + Count sep s'
  end.

Fixpoint genSplit (sep : ascii) (cuts : nat) (s : string) : list string :=
  match s with
  | EmptyString => [EmptyString]
  | String a s' =>
      match cuts with
      | O => [s]
      | S cuts' =>
          if Ascii.eqb a sep then EmptyString :: genSplit sep cuts' s'
          else match genSplit sep cuts s' with
               | h :: t => String a h :: t
               | [] => [String a EmptyString]
               end
      end
  end.

(** [strings.Split(s, sep)]: [n = Count(s, sep) + 1] fields. *)
Definition Split (s : string) (sep : ascii) : list string :=
  genSplit sep (Count sep s) s.

(** [strings.SplitN(s, sep, n)]: [n = 0] gives nil, [n < 0] is [Split],
    [n > 0] gives at most [n] fields. *)
Definition SplitN (s : string) (sep : ascii) (n : Z) : list string :=
  if (n =? 0)%Z then []
  else if (n <? 0)%Z then Split s sep
  else genSplit sep (Z.to_nat (n - 1)) s.

(** ** Image specs *)

Record imageSpec : Type := mkImageSpec {
  name : string;
  imgTarball : string;
  imgConfig : string;
  digests : list string;
  diffIDs : list string;
  compressedLayers : list string;
  uncomressedLayers : list string
}.

(** The zero value [imageSpec{}]. *)
Definition emptySpec : imageSpec :=
  mkImageSpec "" "" "" [] [] [] [].

(** [fmt.Sprintf("%s,%s,%s,%s", compressedLayer, uncompressedLayer, digest, diffID)] *)
Definition layerToken (compressedLayer uncompressedLayer digest diffID : string) : string :=
  compressedLayer +:+ "," +:+ uncompressedLayer +:+ "," +:+ digest +:+ "," +:+ diffID.

(** The body of the [for i, digest := range s.digests] loop of [layers].
    The three indexed reads are guarded by the length test that precedes
    the loop (see [layers_reads_in_range]); [idx] is Go's [l[i]] on an
    index that is in range. *)
Definition idx (l : list string) (i : nat) : string := nth i l "".

Fixpoint layersLoop (s : imageSpec) (i : nat) (ds : list string) (acc : list string)
  : list string :=
  match ds with
  | [] => acc
  | digest :: ds' =>
      let diffID := idx (diffIDs s) i in
      let compressedLayer := idx (compressedLayers s) i in
      let uncompressedLayer := idx (uncomressedLayers s) i in
      layersLoop s (S i) ds'
        (acc ++ [layerToken compressedLayer uncompressedLayer digest diffID])
  end.

Definition layers (s : imageSpec) : result (list string) :=
  if negb (Nat.eqb (List.length (digests s)) (List.length (diffIDs s)))
     || negb (Nat.eqb (List.length (diffIDs s)) (List.length (compressedLayers s)))
     || negb (Nat.eqb (List.length (compressedLayers s)) (List.length (uncomressedLayers s)))
  then Err (ErrUnequalLengths (name s) (List.length (digests s)) (List.length (diffIDs s))
              (List.length (compressedLayers s)) (List.length (uncomressedLayers s)))
  else Ok (layersLoop s 0 (digests s) []).

(** Field assignments of [parseImageSpec]'s switch. *)
Definition setField (acc : imageSpec) (key value : string) : result imageSpec :=
  if String.eqb key "name" then
    Ok (mkImageSpec value (imgTarball acc) (imgConfig acc) (digests acc)
          (diffIDs acc) (compressedLayers acc) (uncomressedLayers acc))
  else if String.eqb key "tarball" then
    Ok (mkImageSpec (name acc) value (imgConfig acc) (digests acc)
          (diffIDs acc) (compressedLayers acc) (uncomressedLayers acc))
  else if String.eqb key "config" then
    Ok (mkImageSpec (name acc) (imgTarball acc) value (digests acc)
          (diffIDs acc) (compressedLayers acc) (uncomressedLayers acc))
  else if String.eqb key "diff_id" then
    Ok (mkImageSpec (name acc) (imgTarball acc) (imgConfig acc) (digests acc)
          (Split value ",") (compressedLayers acc) (uncomressedLayers acc))
  else if String.eqb key "digest" then
    Ok (mkImageSpec (name acc) (imgTarball acc) (imgConfig acc) (Split value ",")
          (diffIDs acc) (compressedLayers acc) (uncomressedLayers acc))
  else if String.eqb key "compressed_layer" then
    Ok (mkImageSpec (name acc) (imgTarball acc) (imgConfig acc) (digests acc)
          (diffIDs acc) (Split value ",") (uncomressedLayers acc))
  else if String.eqb key "uncompressed_layer" then
    Ok (mkImageSpec (name acc) (imgTarball acc) (imgConfig acc) (digests acc)
          (diffIDs acc) (compressedLayers acc) (Split value ","))
  else Err (ErrUnknownField key).

(** The [for _, s := range splitSpec] loop of [parseImageSpec]. *)
Fixpoint parseItems (splitSpec : list string) (acc : imageSpec) : result imageSpec :=
  match splitSpec with
  | [] => Ok acc
  | s :: rest =>
      let splitFields := SplitN s "=" 2 in
      match splitFields with
      | [key; value] =>
          match setField acc key value with
          | Ok acc' => parseItems rest acc'
          | Err e => Err e
          end
      | _ => Err (ErrSplitFields s (List.length splitFields))
      end
  end.

Definition parseImageSpec (spec : string) : result imageSpec :=
  parseItems (Split spec ";") emptySpec.


(** ** Collaborators

    The registry transport, the keychain, the image reader and the name
    parser live in other repositories.  They are the fields of
    [Externals]; the ones that touch the network or the file system
    thread an abstract environment [Env], so that two calls with the same
    arguments may answer differently. *)

Inductive validation : Type := WeakValidation | StrictValidation.

(** [name.Repository], what [ref.Context()] returns. *)
Record Repository : Type := mkRepository {
  RegistryStr : string;
  RepositoryStr : string
}.

(** [name.Tag]. *)
Record Tag : Type := mkTag {
  Context : Repository;
  TagStr : string
}.

(** [ref.Name()] of a tag. *)
Definition Name (t : Tag) : string :=
  RegistryStr (Context t) +:+ "/" +:+ RepositoryStr (Context t) +:+ ":" +:+ TagStr t.

(** [remote.Descriptor]; [Digest] is the [%v] rendering of its hash. *)
Record Descriptor : Type := mkDescriptor { Digest : string }.

(** The two flags of [lib.Flags] this file reads after start-up. *)
Record Flags : Type := mkFlags {
  ImgChroot : string;
  NoPush : bool
}.

(** [compat.Stamper], used only through its [Stamp] method. *)
Definition Stamper : Type := string -> string.

Class Externals : Type := {
  Env : Type;
  Auth : Type;
  Image : Type;
  ImageParts : Type;
  flags : Flags;
  pathJoin : string -> string -> string;
  NewTag : string -> validation -> result Tag;
  ImagePartsFromArgs : string -> string -> string -> list string -> result ImageParts;
  ReadImage : ImageParts -> Env -> Env * result Image;
  KeychainResolve : Repository -> Env -> Env * result Auth;
  remoteWrite : Tag -> Image -> Auth -> Env -> Env * result unit;
  remoteGet : Tag -> Auth -> Env -> Env * result Descriptor;
  imgDigest : Image -> Env -> Env * result string
}.

(** Calls that leave this file, in the order they are made.  The log is
    ghost state: the program never reads it. *)
Inductive call : Type :=
| CallNewTag (s : string) (v : validation)
| CallImagePartsFromArgs (config tarball : string) (layers : list string)
| CallReadImage
| CallKeychainResolve (repo : Repository)
| CallRemoteWrite (t : Tag)
| CallRemoteGet (t : Tag)
| CallDigest.

(** ** State and error monad *)

Definition M (S A : Type) : Type := S -> S * result A.

#[export] Instance M_ret {S} : MRet (M S) := fun A a st => (st, Ok a).

#[export] Instance M_bind {S} : MBind (M S) := fun A B k m st =>
  match m st with
  | (st', Ok a) => k a st'
  | (st', Err e) => (st', Err e)
  end.

Definition fail {S A} (e : error) : M S A := fun st => (st, Err e).

(** [if err != nil { return ..., fmt.Errorf(..., err) }] *)
Definition wrapErr {S A} (f : error -> error) (m : M S A) : M S A := fun st =>
  match m st with
  | (st', Ok a) => (st', Ok a)
  | (st', Err e) => (st', Err (f e))
  end.

(** [if err != nil { return s, nil }]: the error is dropped and the
    fallback value returned in its place. *)
Definition orReturn {S A B} (m : M S A) (fallback : B) (k : A -> M S (B)) : M S B := fun st =>
  match m st with
  | (st', Ok a) => k a st'
  | (st', Err _) => (st', Ok fallback)
  end.

Section Program.
Context `{X : Externals}.

Record world : Type := mkWorld {
  env : Env;
  calls : list call
}.

Definition logged {A} (c : call) (f : Env -> Env * result A) : M world A := fun w =>
  let '(e', x) := f (env w) in (mkWorld e' (calls w ++ [c]), x).

Definition callNewTag (s : string) (v : validation) : M world Tag :=
  logged (CallNewTag s v) (fun e => (e, NewTag s v)).

Definition callImagePartsFromArgs (config baseManifest tarball : string) (layers : list string)
  : M world ImageParts :=
  logged (CallImagePartsFromArgs config tarball layers)
    (fun e => (e, ImagePartsFromArgs config baseManifest tarball layers)).

Definition callReadImage (parts : ImageParts) : M world Image :=
  logged CallReadImage (ReadImage parts).

Definition callKeychainResolve (repo : Repository) : M world Auth :=
  logged (CallKeychainResolve repo) (KeychainResolve repo).

Definition callRemoteWrite (t : Tag) (img : Image) (auth : Auth) : M world unit :=
  logged (CallRemoteWrite t) (remoteWrite t img auth).

Definition callRemoteGet (t : Tag) (auth : Auth) : M world Descriptor :=
  logged (CallRemoteGet t) (remoteGet t auth).

Definition callDigest (img : Image) : M world string :=
  logged CallDigest (imgDigest img).

(** ** Publisher *)

Definition publishSingle (spec : imageSpec) (stamper : Stamper) : M world string :=
  match layers spec with
  | Err err => fail (ErrLayerParts (name spec) err)
  | Ok layers =>
      imgParts ← wrapErr ErrImageParts
                   (callImagePartsFromArgs (imgConfig spec) "" (imgTarball spec) layers);
      img ← wrapErr ErrReadImage (callReadImage imgParts);
      let stampedName := stamper (name spec) in
      ref ← (if negb (String.eqb (ImgChroot flags) "") then
               let n := pathJoin (ImgChroot flags) stampedName in
               wrapErr (ErrStampedTag n) (callNewTag n WeakValidation)
             else
               wrapErr (ErrStampedTag stampedName) (callNewTag stampedName WeakValidation));
      auth ← wrapErr (fun _ => ErrAuthenticator (Name ref)) (callKeychainResolve (Context ref));
      _ ← (if negb (NoPush flags) then
             wrapErr (ErrPush (Name ref)) (callRemoteWrite ref img auth)
           else mret tt);
      d ← wrapErr (fun _ => ErrDigest (Name ref)) (callDigest img);
      mret (RegistryStr (Context ref) +:+ "/" +:+ RepositoryStr (Context ref) +:+ "@" +:+ d)
  end.

(** The loop of [publish]: [overrides] is a [map[string]string], [unseen] a
    [map[string]bool] that only ever holds [true], i.e. a set. *)
Fixpoint publishLoop (spec : list imageSpec) (stamper : Stamper)
    (overrides : gmap string string) (unseen : gset string)
  : M world (gmap string string * gset string) :=
  match spec with
  | [] => mret (overrides, unseen)
  | s :: rest =>
      digestRef ← publishSingle s stamper;
      publishLoop rest stamper (<[name s := digestRef]> overrides) ({[name s]} ∪ unseen)
  end.

Definition publish (spec : list imageSpec) (stamper : Stamper)
  : M world (gmap string string * gset string) :=
  publishLoop spec stamper ∅ ∅.

(** ** Resolver state

    The [strResolver] field of the Go struct is set once, when the struct
    is built, and never assigned again; it is the section variable
    [strResolver] below rather than a field.  Both maps are allocated by
    [publish] before the struct is built. *)

Record resolver : Type := mkResolver {
  resolvedImages : gmap string string;
  unseen : gset string;
  numDocs : nat
}.

Definition rstate : Type := resolver * world.

Definition liftW {A} (m : M world A) : M rstate A := fun st =>
  let '(w', x) := m (snd st) in ((fst st, w'), x).

Definition modifyResolver (f : resolver -> resolver) : M rstate unit := fun st =>
  ((f (fst st), snd st), Ok tt).

Definition getResolver : M rstate resolver := fun st => (st, Ok (fst st)).

(** ** Default string resolver *)

(** [if _, ok := r.unseen[s]; ok { delete(r.unseen, s) }] *)
Definition markSeen (s : string) (r : resolver) : resolver :=
  if decide (s ∈ unseen r)
  then mkResolver (resolvedImages r) (unseen r ∖ {[s]}) (numDocs r)
  else r.

Definition resolveString (s : string) : M rstate string :=
  _ ← modifyResolver (markSeen s);
  r ← getResolver;
  match resolvedImages r !! s with
  | Some o => mret o
  | None =>
      orReturn (liftW (callNewTag s StrictValidation)) s (fun t =>
      orReturn (liftW (callKeychainResolve (Context t))) s (fun auth =>
      orReturn (liftW (callRemoteGet t auth)) s (fun desc =>
        let resolved :=
          RegistryStr (Context t) +:+ "/" +:+ RepositoryStr (Context t) +:+ "@" +:+ Digest desc in
        _ ← modifyResolver (fun r =>
               mkResolver (<[s := resolved]> (resolvedImages r)) (unseen r) (numDocs r));
        mret resolved)))
  end.

End Program.

(** ** Go maps keyed by [interface{}]

    [m[k] = v] on a map kept as its entry list: an entry whose key equals
    [k] has its value replaced in place, otherwise the entry is added.  Go
    compares interface keys by dynamic type and value; slices and maps are
    not hashable and no Go map holds one as a key, so only the scalar
    cases of [item_eqb] are ever exercised by the program. *)

Fixpoint item_eqb (a b : item) : bool :=
  match a, b with
  | INil, INil => true
  | IStr s, IStr t => String.eqb s t
  | IInt n, IInt m => Z.eqb n m
  | IBool x, IBool y => Bool.eqb x y
  | IOther x, IOther y => String.eqb x y
  | IList l, IList l' =>
      (fix go (l l' : list item) : bool :=
         match l, l' with
         | [], [] => true
         | x :: l, y :: l' => item_eqb x y && go l l'
         | _, _ => false
         end) l l'
  | IMap m, IMap m' =>
      (fix go (m m' : list (item * item)) : bool :=
         match m, m' with
         | [], [] => true
         | (k, v) :: m, (k', v') :: m' => item_eqb k k' && item_eqb v v' && go m m'
         | _, _ => false
         end) m m'
  | _, _ => false
  end.

Fixpoint mapGet (m : list (item * item)) (k : item) : option item :=
  match m with
  | [] => None
  | (k', v') :: m' => if item_eqb k' k then Some v' else mapGet m' k
  end.

Fixpoint mapSet (m : list (item * item)) (k v : item) : list (item * item) :=
  match m with
  | [] => [(k, v)]
  | (k', v') :: m' =>
      if item_eqb k' k then (k', v) :: m' else (k', v') :: mapSet m' k v
  end.

(** ** Document walk *)

Section Walk.
Context `{X : Externals}.

(** The [strResolver] field, a function from the resolver and a string
    to a string and an error. *)
Variable strResolver : string -> M rstate string.

Fixpoint resolveItem (i : item) : M rstate item :=
  match i with
  | IStr s => s' ← strResolver s; mret (IStr s')
  | IList l =>
      l' ← (fix resolveListLoop (l : list item) (out : list item) : M rstate (list item) :=
              match l with
              | [] => mret out
              | i :: rest =>
                  o ← wrapErr (ErrListItem i) (resolveItem i);
                  resolveListLoop rest (out ++ [o])
              end) l [];
      mret (IList l')
  | IMap m =>
      m' ← (fix resolveMapLoop (m out : list (item * item)) : M rstate (list (item * item)) :=
              match m with
              | [] => mret out
              | (k, v) :: rest =>
                  rk ← wrapErr (ErrMapKey k) (resolveItem k);
                  rv ← wrapErr (ErrMapValue v) (resolveItem v);
                  resolveMapLoop rest (mapSet out rk rv)
              end) m [];
      mret (IMap m')
  | _ => mret i
  end.

(** The loop of [resolveList], with [out] the slice built so far. *)
Fixpoint resolveListLoop (l : list item) (out : list item) : M rstate (list item) :=
  match l with
  | [] => mret out
  | i :: rest =>
      o ← wrapErr (ErrListItem i) (resolveItem i);
      resolveListLoop rest (out ++ [o])
  end.

Definition resolveList (l : list item) : M rstate (list item) :=
  resolveListLoop l [].

(** The loop of [resolveMap], with [out] the map built so far. *)
Fixpoint resolveMapLoop (m out : list (item * item)) : M rstate (list (item * item)) :=
  match m with
  | [] => mret out
  | (k, v) :: rest =>
      rk ← wrapErr (ErrMapKey k) (resolveItem k);
      rv ← wrapErr (ErrMapValue v) (resolveItem v);
      resolveMapLoop rest (mapSet out rk rv)
  end.

Definition resolveMap (m : list (item * item)) : M rstate (list (item * item)) :=
  resolveMapLoop m [].

End Walk.

(** ** Document decoder *)

Record yamlDoc : Type := mkYamlDoc {
  vList : option (list item);
  vMap : option (list (item * item));
  isInt : bool;
  vInt : Z;
  isBool : bool;
  vBool : bool;
  isStr : bool;
  vStr : string
}.

(** [yamlDoc{}]: nil slice, nil map, flags down. *)
Definition zeroDoc : yamlDoc := mkYamlDoc None None false 0 false false false "".

Inductive shape : Type := ShList | ShMap | ShInt | ShBool | ShStr.

(** The [unmarshal func(interface{}) error] closure the YAML decoder hands
    to [UnmarshalYAML], one entry per target type it is called with: given
    what the target holds, what it holds afterwards and the error. *)
Record unmarshalFn : Type := mkUnmarshal {
  intoList : option (list item) -> option (list item) * option error;
  intoMap : option (list (item * item)) -> option (list (item * item)) * option error;
  intoInt : Z -> Z * option error;
  intoBool : bool -> bool * option error;
  intoStr : string -> string * option error
}.

Definition setVList (y : yamlDoc) (l : option (list item)) : yamlDoc :=
  mkYamlDoc l (vMap y) (isInt y) (vInt y) (isBool y) (vBool y) (isStr y) (vStr y).
Definition setVMap (y : yamlDoc) (m : option (list (item * item))) : yamlDoc :=
  mkYamlDoc (vList y) m (isInt y) (vInt y) (isBool y) (vBool y) (isStr y) (vStr y).
Definition setVInt (y : yamlDoc) (n : Z) : yamlDoc :=
  mkYamlDoc (vList y) (vMap y) (isInt y) n (isBool y) (vBool y) (isStr y) (vStr y).
Definition setIsInt (y : yamlDoc) : yamlDoc :=
  mkYamlDoc (vList y) (vMap y) true (vInt y) (isBool y) (vBool y) (isStr y) (vStr y).
Definition setVBool (y : yamlDoc) (b : bool) : yamlDoc :=
  mkYamlDoc (vList y) (vMap y) (isInt y) (vInt y) (isBool y) b (isStr y) (vStr y).
Definition setIsBool (y : yamlDoc) : yamlDoc :=
  mkYamlDoc (vList y) (vMap y) (isInt y) (vInt y) true (vBool y) (isStr y) (vStr y).
Definition setVStr (y : yamlDoc) (s : string) : yamlDoc :=
  mkYamlDoc (vList y) (vMap y) (isInt y) (vInt y) (isBool y) (vBool y) (isStr y) s.
Definition setIsStr (y : yamlDoc) : yamlDoc :=
  mkYamlDoc (vList y) (vMap y) (isInt y) (vInt y) (isBool y) (vBool y) true (vStr y).

(** [UnmarshalYAML] returns the document as the attempts left it, the
    shapes it tried in the order it tried them (ghost), and its error. *)
Definition UnmarshalYAML (y : yamlDoc) (unmarshal : unmarshalFn)
  : yamlDoc * list shape * option error :=
  let '(l, err) := intoList unmarshal (vList y) in
  let y := setVList y l in
  match err with
  | None => (y, [ShList], None)
  | Some _ =>
  let '(m, err) := intoMap unmarshal (vMap y) in
  let y := setVMap y m in
  match err with
  | None => (y, [ShList; ShMap], None)
  | Some _ =>
  let '(n, err) := intoInt unmarshal (vInt y) in
  let y := setVInt y n in
  match err with
  | None => (setIsInt y, [ShList; ShMap; ShInt], None)
  | Some _ =>
  let '(b, err) := intoBool unmarshal (vBool y) in
  let y := setVBool y b in
  match err with
  | None => (setIsBool y, [ShList; ShMap; ShInt; ShBool], None)
  | Some _ =>
  let '(s, err) := intoStr unmarshal (vStr y) in
  let y := setVStr y s in
  match err with
  | None => (setIsStr y, [ShList; ShMap; ShInt; ShBool; ShStr], None)
  | Some _ => (y, [ShList; ShMap; ShInt; ShBool; ShStr], Some ErrNoShape)
  end end end end end.

(** [val]: the stored value, nil when nothing was stored. *)
Definition val (y : yamlDoc) : item :=
  match vList y with
  | Some l => IList l
  | None =>
  match vMap y with
  | Some m => IMap m
  | None =>
      if isInt y then IInt (vInt y)
      else if isBool y then IBool (vBool y)
      else if isStr y then IStr (vStr y)
      else INil
  end end.

(** The order of the attempts, and the error the attempt for one shape
    returns on the document as [UnmarshalYAML] received it. *)
Definition shapeOrder : list shape := [ShList; ShMap; ShInt; ShBool; ShStr].

Definition attemptErr (unmarshal : unmarshalFn) (y : yamlDoc) (sh : shape) : option error :=
  match sh with
  | ShList => (intoList unmarshal (vList y)).2
  | ShMap => (intoMap unmarshal (vMap y)).2
  | ShInt => (intoInt unmarshal (vInt y)).2
  | ShBool => (intoBool unmarshal (vBool y)).2
  | ShStr => (intoStr unmarshal (vStr y)).2
  end.

Definition attemptOk (unmarshal : unmarshalFn) (y : yamlDoc) (sh : shape) : bool :=
  match attemptErr unmarshal y sh with None => true | Some _ => false end.

Definition shape_eqb (a b : shape) : bool :=
  match a, b with
  | ShList, ShList | ShMap, ShMap | ShInt, ShInt | ShBool, ShBool | ShStr, ShStr => true
  | _, _ => false
  end.

(** What the target of one shape holds in a document (a nil slice or map
    reads as nil), and what the attempt for that shape leaves in it when
    it is made on the document as [UnmarshalYAML] received it. *)
Definition held (y : yamlDoc) (sh : shape) : item :=
  match sh with
  | ShList => match vList y with Some l => IList l | None => INil end
  | ShMap => match vMap y with Some m => IMap m | None => INil end
  | ShInt => IInt (vInt y)
  | ShBool => IBool (vBool y)
  | ShStr => IStr (vStr y)
  end.

Definition attemptHeld (unmarshal : unmarshalFn) (y : yamlDoc) (sh : shape) : item :=
  match sh with
  | ShList => match (intoList unmarshal (vList y)).1 with Some l => IList l | None => INil end
  | ShMap => match (intoMap unmarshal (vMap y)).1 with Some m => IMap m | None => INil end
  | ShInt => IInt (intoInt unmarshal (vInt y)).1
  | ShBool => IBool (intoBool unmarshal (vBool y)).1
  | ShStr => IStr (intoStr unmarshal (vStr y)).1
  end.

(** Scalars spelt with decimal digits only, their value, and the largest
    value of Go's [int] (64 bits on the platforms the tool is built for). *)
Definition isDigit (c : ascii) : bool :=
  (48 <=? nat_of_ascii c)%nat && (nat_of_ascii c <=? 57)%nat.

Fixpoint allDigitsFrom (s : string) : bool :=
  match s with
  | EmptyString => true
  | String c s' => isDigit c && allDigitsFrom s'
  end.

Definition allDigits (s : string) : bool :=
  match s with
  | EmptyString => false
  | String _ _ => allDigitsFrom s
  end.

Fixpoint digitsValueFrom (acc : Z) (s : string) : Z :=
  match s with
  | EmptyString => acc
  | String c s' => digitsValueFrom (10 * acc + (Z.of_nat (nat_of_ascii c) - 48))%Z s'
  end.

Definition digitsValue (s : string) : Z := digitsValueFrom 0%Z s.

Definition maxInt : Z := 9223372036854775807%Z.

(** A string has the byte [sep] in it when it can be cut around one. *)
Definition hasByte (sep : ascii) (s : string) : Prop :=
  exists k v, s = k +:+ String sep v.

(** ** Runs of the loops, as relations

    [published stamper specs w w' ds]: starting in world [w], every spec of
    [specs] was handed to [publishSingle] in order, each call succeeded,
    [ds] are the digest references in order and [w'] is the world after
    the last call. *)

Section Runs.
Context `{X : Externals}.

Inductive published (stamper : Stamper)
  : list imageSpec -> world -> world -> list string -> Prop :=
| published_nil w : published stamper [] w w []
| published_cons s rest w w1 w2 d ds :
    publishSingle s stamper w = (w1, Ok d) ->
    published stamper rest w1 w2 ds ->
    published stamper (s :: rest) w w2 (d :: ds).

Variable strResolver : string -> M rstate string.

(** [resolvedItems l st st' out]: [resolveItem] was applied to each element
    of [l] in order, threading the state from [st] to [st'], every call
    succeeded and [out] are the results in order. *)
Inductive resolvedItems : list item -> rstate -> rstate -> list item -> Prop :=
| resolvedItems_nil st : resolvedItems [] st st []
| resolvedItems_cons i rest st st1 st2 o out :
    resolveItem strResolver i st = (st1, Ok o) ->
    resolvedItems rest st1 st2 out ->
    resolvedItems (i :: rest) st st2 (o :: out).

(** [resolvedPairs m st st' ps]: for each entry of [m] in visiting order the
    key and then the value went through [resolveItem], every call
    succeeded and [ps] are the resolved pairs in that order. *)
Inductive resolvedPairs
  : list (item * item) -> rstate -> rstate -> list (item * item) -> Prop :=
| resolvedPairs_nil st : resolvedPairs [] st st []
| resolvedPairs_cons k v rest st st1 st2 st3 rk rv ps :
    resolveItem strResolver k st = (st1, Ok rk) ->
    resolveItem strResolver v st1 = (st2, Ok rv) ->
    resolvedPairs rest st2 st3 ps ->
    resolvedPairs ((k, v) :: rest) st st3 ((rk, rv) :: ps).

End Runs.

(** The map that the assignments [m[k] = v], made in list order, leave. *)
Definition assignAll (m : gmap string string) (kvs : list (string * string))
  : gmap string string :=
  foldl (fun m kv => <[kv.1 := kv.2]> m) m kvs.

(** The map that the assignments [out[k] = v], made in list order, leave
    in a map keyed by dynamic values. *)
Definition setAll (out ps : list (item * item)) : list (item * item) :=
  foldl (fun m p => mapSet m p.1 p.2) out ps.

(** Number of registry fetches in a call log. *)
Definition isFetch (c : call) : bool :=
  match c with CallRemoteGet _ => true | _ => false end.

Definition fetches (cs : list call) : nat := List.length (List.filter isFetch cs).

(** ** Test doubles

    Stand-ins for the collaborators, in the manner of the unit tests that
    swap the string resolver: a registry that is a finite map from tag
    names to digests, a keychain that always answers, and a tag parser
    that wants [registry/repository:tag]. *)

Module Fake.

Definition parseTag (s : string) (v : validation) : result Tag :=
  match SplitN s "/" 2 with
  | [reg; rest] =>
      match SplitN rest ":" 2 with
      | [repo; tag] => Ok (mkTag (mkRepository reg repo) tag)
      | _ => Err (ErrExternal "missing tag")
      end
  | _ => Err (ErrExternal "missing registry")
  end.

Definition get (t : Tag) (auth : unit) (e : gmap string string)
  : gmap string string * result Descriptor :=
  match e !! Name t with
  | Some d => (e, Ok (mkDescriptor d))
  | None => (e, Err (ErrExternal "MANIFEST_UNKNOWN"))
  end.

Definition externals : Externals := {|
  Env := gmap string string;
  Auth := unit;
  Image := string;
  ImageParts := string;
  flags := mkFlags "" false;
  pathJoin := fun a b => a +:+ "/" +:+ b;
  NewTag := parseTag;
  ImagePartsFromArgs := fun config _ _ _ => Ok config;
  ReadImage := fun parts e => (e, Ok ("sha256:" +:+ parts));
  KeychainResolve := fun _ e => (e, Ok tt);
  remoteWrite := fun t img _ e => (<[Name t := img]> e, Ok tt);
  remoteGet := get;
  imgDigest := fun img e => (e, Ok img)
|}.

(** A string resolver that rejects one string and returns the others as
    they are. *)
Definition rejecting (bad : string) (s : string) : M (@rstate externals) string :=
  if String.eqb s bad then fail (ErrExternal "rejected") else mret s.

(** A string resolver that maps every string to the same one. *)
Definition constant (c : string) (s : string) : M (@rstate externals) string :=
  mret c.

Definition emptyWorld : @world externals := mkWorld (X := externals) ∅ [].

Definition emptyState : @rstate externals := (mkResolver ∅ ∅ 0, emptyWorld).

Definition spec (n config : string) : imageSpec :=
  mkImageSpec n "" config [] [] [] [].

(** The [unmarshal] closure of a decoder sitting on the plain scalar
    [42]: a scalar is neither a sequence nor a mapping, it reads as the
    integer 42, not as a boolean, and as the string "42". *)
Definition scalar42 : unmarshalFn := {|
  intoList := fun l => (l, Some (ErrExternal "cannot unmarshal !!int into []interface {}"));
  intoMap := fun m => (m, Some (ErrExternal "cannot unmarshal !!int into map"));
  intoInt := fun _ => (42%Z, None);
  intoBool := fun b => (b, Some (ErrExternal "cannot unmarshal !!int into bool"));
  intoStr := fun _ => ("42", None)
|}.

(** The [unmarshal] closure of a decoder sitting on a plain scalar spelt
    with decimal digits only, without a leading zero: it is neither a
    sequence nor a mapping nor a boolean, it reads as an integer when its
    value fits [int] (otherwise the integer attempt fails and leaves its
    target alone), and it always reads as the string of its digits. *)
Definition digits (text : string) : unmarshalFn := {|
  intoList := fun l => (l, Some (ErrExternal "cannot unmarshal scalar into []interface {}"));
  intoMap := fun m => (m, Some (ErrExternal "cannot unmarshal scalar into map"));
  intoInt := fun n =>
    if (digitsValue text <=? maxInt)%Z then (digitsValue text, None)
    else (n, Some (ErrExternal "cannot unmarshal scalar into int"));
  intoBool := fun b => (b, Some (ErrExternal "cannot unmarshal scalar into bool"));
  intoStr := fun _ => (text, None)
|}.

End Fake.

(** ** Further notions used by the properties *)

(** [strings.Join] with a one-byte separator: the inverse of [Split] the
    image-spec format relies on for its comma-joined lists. *)
Fixpoint Join (l : list string) (sep : ascii) : string :=
  match l with
  | [] => ""
  | x :: l' =>
      match l' with
      | [] => x
      | _ :: _ => x +:+ String sep (Join l' sep)
      end
  end.

(** The keys the switch of [parseImageSpec] has a case for. *)
Definition knownKeys : list string :=
  ["name"; "tarball"; "config"; "diff_id"; "digest"; "compressed_layer";
   "uncompressed_layer"].

(** An item [key=value] whose key has a case. *)
Definition wellFormedItem (s : string) : Prop :=
  exists k v, s = k +:+ String "=" v /\ k ∈ knownKeys.

(** Number of registry writes in a call log. *)
Definition isPush (c : call) : bool :=
  match c with CallRemoteWrite _ => true | _ => false end.

Definition pushes (cs : list call) : nat := List.length (List.filter isPush cs).

(** The strings of a document: every string node, map keys included. *)
Fixpoint stringsOf (i : item) : gset string :=
  match i with
  | IStr s => {[s]}
  | IList l =>
      (fix go (l : list item) : gset string :=
         match l with
         | [] => ∅
         | x :: l' => stringsOf x ∪ go l'
         end) l
  | IMap m =>
      (fix go (m : list (item * item)) : gset string :=
         match m with
         | [] => ∅
         | (k, v) :: m' => stringsOf k ∪ stringsOf v ∪ go m'
         end) m
  | _ => ∅
  end.

(** A document as the decoder builds it: the entries of every map have
    pairwise distinct keys. *)
Fixpoint distinctKeys (i : item) : Prop :=
  match i with
  | IList l =>
      (fix go (l : list item) : Prop :=
         match l with
         | [] => True
         | x :: l' => distinctKeys x /\ go l'
         end) l
  | IMap m =>
      NoDup m.*1 /\
      (fix go (m : list (item * item)) : Prop :=
         match m with
         | [] => True
         | (k, v) :: m' => distinctKeys k /\ distinctKeys v /\ go m'
         end) m
  | _ => True
  end.

(** ** The document stream

    [resolveYAML] reads documents from a [yaml.Decoder] and writes the
    resolved ones to a [yaml.Encoder]; both belong to the YAML library.
    The decoder is the list of what its successive [Decode(&y)] calls
    answer on a fresh [yamlDoc]: the document as the call left it, and
    nil, [io.EOF] or another error.  A decoder whose list is used up
    answers [io.EOF] and leaves the document untouched.  The encoder is
    what [Encode(o)] returns after the documents of a list were written
    ([encodeErr]) and the bytes the buffer then holds ([render]). *)

Inductive decodeStatus : Type :=
| DecodeOk
| DecodeEOF
| DecodeFailed (e : error).

(** The three ways [resolveYAML] fails.  Go returns each of them as an
    [error]: the decoder's and the encoder's as they are, the walk's
    wrapped in "error resolving YAML template: %v". *)
Inductive yamlError : Type :=
| YamlDecode (e : error)
| YamlResolve (e : error)
| YamlEncode (e : error).

Section Stream.
Context `{X : Externals}.
Variable strResolver : string -> M rstate string.
Variable encodeErr : list item -> item -> option error.
Variable render : list item -> string.

(** [r.numDocs++] *)
Definition bumpNumDocs (st : rstate) : rstate :=
  (mkResolver (resolvedImages st.1) (unseen st.1) (S (numDocs st.1)), st.2).

(** The body of the loop of [resolveYAML] after [Decode]: resolve
    [y.val()], and encode the result unless it is nil.  [encoded] are the
    documents written so far. *)
Definition resolveDoc (y : yamlDoc) (encoded : list item) (st : rstate)
  : rstate * (yamlError + list item) :=
  match resolveItem strResolver (val y) st with
  | (st', Err e) => (st', inl (YamlResolve e))
  | (st', Ok INil) => (st', inr encoded)
  | (st', Ok o) =>
      match encodeErr encoded o with
      | Some e => (bumpNumDocs st', inl (YamlEncode e))
      | None => (bumpNumDocs st', inr (encoded ++ [o]))
      end
  end.

Fixpoint resolveYAMLLoop (d : list (yamlDoc * decodeStatus)) (encoded : list item)
    (st : rstate) : rstate * (yamlError + list item) :=
  match d with
  | [] => resolveDoc zeroDoc encoded st
  | (y, DecodeFailed e) :: _ => (st, inl (YamlDecode e))
  | (y, DecodeEOF) :: _ => resolveDoc y encoded st
  | (y, DecodeOk) :: rest =>
      match resolveDoc y encoded st with
      | (st', inr encoded') => resolveYAMLLoop rest encoded' st'
      | (st', inl e) => (st', inl e)
      end
  end.

Definition resolveYAML (d : list (yamlDoc * decodeStatus)) (st : rstate)
  : rstate * (yamlError + string) :=
  match resolveYAMLLoop d [] st with
  | (st', inr encoded) => (st', inr (render encoded))
  | (st', inl e) => (st', inl e)
  end.

End Stream.

(** A decoder that answers the given documents, each without error, and
    then [io.EOF]. *)
Definition documents (ys : list yamlDoc) : list (yamlDoc * decodeStatus) :=
  (fun y => (y, DecodeOk)) <$> ys.

(** The document that holds one decoded value. *)
Definition docOf (i : item) : yamlDoc :=
  match i with
  | IList l => mkYamlDoc (Some l) None false 0 false false false ""
  | IMap m => mkYamlDoc None (Some m) false 0 false false false ""
  | IInt n => mkYamlDoc None None true n false false false ""
  | IBool b => mkYamlDoc None None false 0 true b false ""
  | IStr s => mkYamlDoc None None false 0 false false true s
  | _ => zeroDoc
  end.

(** The list-valued fields of an image spec, by the key that sets them. *)
Definition listKeys : list string :=
  ["diff_id"; "digest"; "compressed_layer"; "uncompressed_layer"].

Definition listField (key : string) (s : imageSpec) : list string :=
  if String.eqb key "diff_id" then diffIDs s
  else if String.eqb key "digest" then digests s
  else if String.eqb key "compressed_layer" then compressedLayers s
  else if String.eqb key "uncompressed_layer" then uncomressedLayers s
  else [].

(** The spec string a rule writes for an image with the given name and
    layer files: the five items joined by ';', the lists by ','. *)
Definition specString (n : string) (ds fs cs us : list string) : string :=
  "name=" +:+ n +:+ ";digest=" +:+ Join ds "," +:+ ";diff_id=" +:+ Join fs ","
    +:+ ";compressed_layer=" +:+ Join cs "," +:+ ";uncompressed_layer=" +:+ Join us ",".

(** The name [publishSingle] makes its tag from: the stamped name, under
    the chroot when one is configured. *)
Definition publishedTagName `{X : Externals} (spec : imageSpec) (stamper : Stamper) : string :=
  if negb (String.eqb (ImgChroot flags) "")
  then pathJoin (ImgChroot flags) (stamper (name spec))
  else stamper (name spec).

(** The calls a successful [publishSingle] makes, in order. *)
Definition publishCalls `{X : Externals} (spec : imageSpec) (ls : list string) (n : string)
    (t : Tag) : list call :=
  [CallImagePartsFromArgs (imgConfig spec) (imgTarball spec) ls; CallReadImage;
   CallNewTag n WeakValidation; CallKeychainResolve (Context t)]
  ++ (if NoPush flags then [] else [CallRemoteWrite t])
  ++ [CallDigest].

(** The last step of [publishSingle], from the call of [img.Digest()] on:
    the digest and the reference made from it. *)
Definition digestStep `{X : Externals} (t : Tag) (img : Image) (e : Env) (cs : list call)
  : world * result string :=
  match imgDigest img e with
  | (e', Err _) => (mkWorld e' (cs ++ [CallDigest]), Err (ErrDigest (Name t)))
  | (e', Ok d) =>
      (mkWorld e' (cs ++ [CallDigest]),
       Ok (RegistryStr (Context t) +:+ "/" +:+ RepositoryStr (Context t) +:+ "@" +:+ d))
  end.

(** What a walk with the default resolver may do to the resolver state
    between [st] and [st']: the strings [seen] have left the unseen set,
    the cache has kept its entries, the document counter is untouched. *)
Definition tracked `{X : Externals} (st st' : rstate) (seen : gset string) : Prop :=
  unseen st'.1 = unseen st.1 ∖ seen /\
  (forall k v, resolvedImages st.1 !! k = Some v -> resolvedImages st'.1 !! k = Some v) /\
  numDocs st'.1 = numDocs st.1.

(** The result of resolving a node has the variant of the node. *)
Definition sameShape (i o : item) : Prop :=
  match i, o with
  | IStr _, IStr _ => True
  | IList l, IList l' => List.length l' = List.length l
  | IMap m, IMap m' => List.length m' <= List.length m
  | _, _ => o = i
  end.

(** [o != nil] *)
Definition notNil (o : item) : bool :=
  match o with INil => false | _ => true end.

(** The value a successful attempt for a shape stores in a fresh
    document, as [val] reads it back: a nil slice or a nil map reads as
    nil. *)
Definition storedBy (unmarshal : unmarshalFn) (sh : shape) : item :=
  match sh with
  | ShList => match (intoList unmarshal None).1 with Some l => IList l | None => INil end
  | ShMap => match (intoMap unmarshal None).1 with Some m => IMap m | None => INil end
  | ShInt => IInt (intoInt unmarshal 0%Z).1
  | ShBool => IBool (intoBool unmarshal false).1
  | ShStr => IStr (intoStr unmarshal "").1
  end.

(** * Properties *)

(** ** Splitting *)

Lemma genSplit_zero sep s : genSplit sep 0 s = [s].
Proof. by destruct s. Qed.

Lemma genSplit_not_nil sep cuts s : genSplit sep cuts s <> [].
Proof.
  revert cuts; induction s as [|a s IH]; intros cuts; simpl; [done|].
  destruct cuts as [|cuts]; [done|].
  destruct (Ascii.eqb a sep); [done|].
  by destruct (genSplit sep (S cuts) s).
Qed.

Lemma genSplit_no_sep sep cuts s : Count sep s = 0 -> genSplit sep cuts s = [s].
Proof.
  revert cuts; induction s as [|a s IH]; intros cuts Hc; simpl in *; [done|].
  destruct cuts as [|cuts]; [done|].
  destruct (Ascii.eqb a sep); [done|].
  by rewrite IH.
Qed.

Lemma genSplit_first_sep sep cuts k v :
  Count sep k = 0 ->
  genSplit sep (S cuts) (k +:+ String sep v) = k :: genSplit sep cuts v.
Proof.
  induction k as [|a k IH]; intros Hc; simpl in *.
  - by rewrite Ascii.eqb_refl.
  - destruct (Ascii.eqb a sep); [done|].
    by rewrite IH.
Qed.

Lemma Count_app sep a b : Count sep (a +:+ b) = Count sep a + Count sep b.
Proof. induction a as [|c a IH]; simpl; [done|]. rewrite IH. lia. Qed.

Lemma Count_first_sep sep s :
  Count sep s <> 0 ->
  exists k v, s = k +:+ String sep v /\ Count sep k = 0.
Proof.
  induction s as [|a s IH]; simpl; [done|].
  destruct (Ascii.eqb a sep) eqn:E.
  - intros _. apply Ascii.eqb_eq in E as ->. by exists "", s.
  - intros Hc. destruct (IH Hc) as (k & v & -> & Hk).
    exists (String a k), v. simpl. by rewrite E.
Qed.

Lemma hasByte_Count sep s : hasByte sep s <-> Count sep s <> 0.
Proof.
  split.
  - intros (k & v & ->). rewrite Count_app. simpl. rewrite Ascii.eqb_refl. lia.
  - intros H. destruct (Count_first_sep _ _ H) as (k & v & -> & _). by exists k, v.
Qed.

Lemma SplitN_two s sep : SplitN s sep 2 = genSplit sep 1 s.
Proof. reflexivity. Qed.

Lemma SplitN2_cut sep k v :
  Count sep k = 0 -> SplitN (k +:+ String sep v) sep 2 = [k; v].
Proof.
  intros Hk. rewrite SplitN_two.
  by rewrite genSplit_first_sep, genSplit_zero.
Qed.

Lemma SplitN2_whole sep s : ~ hasByte sep s -> SplitN s sep 2 = [s].
Proof.
  intros H. rewrite SplitN_two. apply genSplit_no_sep.
  destruct (Count sep s) eqn:E; [done|].
  exfalso. apply H, hasByte_Count. lia.
Qed.

Lemma hasByte_dec sep s : {hasByte sep s} + {~ hasByte sep s}.
Proof.
  destruct (Nat.eq_dec (Count sep s) 0) as [E|E].
  - right. intros H. by apply hasByte_Count in H.
  - left. by apply hasByte_Count.
Qed.

(** ** Image specs *)

Example parse_demo :
  parseImageSpec "name=gcr.io/foo/bar:v1;tarball=x.tar;digest=a,b;diff_id=c,d" =
  Ok (mkImageSpec "gcr.io/foo/bar:v1" "x.tar" "" ["a"; "b"] ["c"; "d"] [] []).
Proof. reflexivity. Qed.

Lemma parseItems_cut k v rest acc :
  Count "=" k = 0 ->
  parseItems ((k +:+ String "=" v) :: rest) acc =
  match setField acc k v with
  | Ok acc' => parseItems rest acc'
  | Err e => Err e
  end.
Proof. intros Hk. simpl. by rewrite (SplitN2_cut "="%char k v Hk). Qed.

Lemma parseItems_whole s rest acc :
  ~ hasByte "=" s ->
  parseItems (s :: rest) acc = Err (ErrSplitFields s 1).
Proof. intros H. simpl. by rewrite (SplitN2_whole "="%char s H). Qed.

Lemma setField_not_split acc k v s n : setField acc k v <> Err (ErrSplitFields s n).
Proof.
  unfold setField.
  repeat (match goal with |- context [if ?b then _ else _] => destruct b end; [done|]).
  done.
Qed.

Lemma parseItems_split_error items : forall acc s n,
  parseItems items acc = Err (ErrSplitFields s n) <->
  n = 1 /\ ~ hasByte "=" s /\
  exists pre post acc', items = pre ++ s :: post /\ parseItems pre acc = Ok acc'.
Proof.
  induction items as [|it items IH]; intros acc s n.
  - simpl. split; [done|]. intros (_ & _ & pre & post & acc' & H & _).
    by destruct pre.
  - destruct (hasByte_dec "=" it) as [Hit|Hit].
    + apply hasByte_Count, Count_first_sep in Hit as (k & v & -> & Hk).
      rewrite parseItems_cut by done.
      destruct (setField acc k v) as [acc1|e] eqn:Hset.
      * rewrite IH. split.
        -- intros (-> & Hs & pre & post & acc' & -> & Hpre).
           split; [done|]. split; [done|].
           exists ((k +:+ String "="%char v) :: pre), post, acc'. split; [done|].
           change (((k +:+ String "="%char v) :: pre)) with ([k +:+ String "="%char v] ++ pre).
           simpl. rewrite (SplitN2_cut "="%char k v Hk). by rewrite Hset.
        -- intros (-> & Hs & pre & post & acc' & Hitems & Hpre).
           split; [done|]. split; [done|].
           destruct pre as [|p pre]; simpl in Hitems.
           ++ injection Hitems as <- _. exfalso. apply Hs. by exists k, v.
           ++ injection Hitems as <- ->.
              rewrite parseItems_cut in Hpre by done. rewrite Hset in Hpre.
              by exists pre, post, acc'.
      * split.
        -- intros He. injection He as ->. by apply setField_not_split in Hset.
        -- intros (-> & Hs & pre & post & acc' & Hitems & Hpre).
           destruct pre as [|p pre]; simpl in Hitems.
           ++ injection Hitems as <- _. exfalso. apply Hs. by exists k, v.
           ++ injection Hitems as <- ->.
              rewrite parseItems_cut in Hpre by done. by rewrite Hset in Hpre.
    + rewrite parseItems_whole by done. split.
      * intros He. injection He as <- <-. split; [done|]. split; [done|].
        by exists [], items, acc.
      * intros (-> & Hs & pre & post & acc' & Hitems & Hpre).
        destruct pre as [|p pre]; simpl in Hitems.
        -- by injection Hitems as <- _.
        -- injection Hitems as <- ->.
           by rewrite parseItems_whole in Hpre.
Qed.

Lemma layersLoop_imap s i ds acc :
  layersLoop s i ds acc =
  acc ++ imap (fun j digest =>
                 layerToken (idx (compressedLayers s) (i + j))
                            (idx (uncomressedLayers s) (i + j))
                            digest
                            (idx (diffIDs s) (i + j))) ds.
Proof.
  revert i acc; induction ds as [|d ds IH]; intros i acc; simpl.
  - by rewrite app_nil_r.
  - rewrite IH, <- app_assoc. simpl. rewrite Nat.add_0_r.
    do 2 f_equal. apply imap_ext. intros j x _. simpl.
    by rewrite Nat.add_succ_r.
Qed.

Lemma idx_lookup (l : list string) i x : l !! i = Some x -> idx l i = x.
Proof. intros H. unfold idx. by apply nth_lookup_Some. Qed.

(** The indexed reads of the loop of [layers] stay in range once the
    length test has passed. *)
Lemma layers_reads_in_range s i :
  is_ok (layers s) = true ->
  i < List.length (digests s) ->
  is_Some (diffIDs s !! i) /\ is_Some (compressedLayers s !! i) /\
  is_Some (uncomressedLayers s !! i).
Proof.
  unfold layers.
  destruct (Nat.eqb_spec (List.length (digests s)) (List.length (diffIDs s))) as [E1|]; [|done].
  destruct (Nat.eqb_spec (List.length (diffIDs s)) (List.length (compressedLayers s))) as [E2|]; [|done].
  destruct (Nat.eqb_spec (List.length (compressedLayers s)) (List.length (uncomressedLayers s))) as [E3|]; [|done].
  intros _ Hi. repeat split; apply lookup_lt_is_Some; lia.
Qed.

(** C8. With four layer lists of one length, [layers] succeeds with one
    token per index, in order, the token at index [i] being
    "compressedLayer,uncompressedLayer,digest,diffID" of the [i]-th
    elements; with lengths that are not all equal it fails with the error
    that carries the image name and the four lengths. *)
Theorem layers_tokens_or_length_error (s : imageSpec) :
  (List.length (digests s) = List.length (diffIDs s) /\
   List.length (diffIDs s) = List.length (compressedLayers s) /\
   List.length (compressedLayers s) = List.length (uncomressedLayers s) ->
   exists tokens,
     layers s = Ok tokens /\
     List.length tokens = List.length (digests s) /\
     forall i, i < List.length (digests s) ->
       exists c u d f,
         compressedLayers s !! i = Some c /\ uncomressedLayers s !! i = Some u /\
         digests s !! i = Some d /\ diffIDs s !! i = Some f /\
         tokens !! i = Some (c +:+ "," +:+ u +:+ "," +:+ d +:+ "," +:+ f)) /\
  (~ (List.length (digests s) = List.length (diffIDs s) /\
      List.length (diffIDs s) = List.length (compressedLayers s) /\
      List.length (compressedLayers s) = List.length (uncomressedLayers s)) ->
   layers s = Err (ErrUnequalLengths (name s)
                     (List.length (digests s)) (List.length (diffIDs s))
                     (List.length (compressedLayers s))
                     (List.length (uncomressedLayers s)))).
Proof.
  unfold layers. split.
  - intros (E1 & E2 & E3).
    rewrite <- E3, <- E2, <- E1, !Nat.eqb_refl. simpl.
    eexists. split; [done|].
    rewrite layersLoop_imap. simpl. split; [by rewrite length_imap|].
    intros i Hi.
    destruct (lookup_lt_is_Some_2 (compressedLayers s) i) as [c Hc]; [lia|].
    destruct (lookup_lt_is_Some_2 (uncomressedLayers s) i) as [u Hu]; [lia|].
    destruct (lookup_lt_is_Some_2 (digests s) i) as [d Hd]; [lia|].
    destruct (lookup_lt_is_Some_2 (diffIDs s) i) as [f Hf]; [lia|].
    exists c, u, d, f. repeat (split; [done|]).
    rewrite list_lookup_imap, Hd. simpl.
    by rewrite (idx_lookup _ _ _ Hc), (idx_lookup _ _ _ Hu), (idx_lookup _ _ _ Hf).
  - intros Hne.
    destruct (Nat.eqb_spec (List.length (digests s)) (List.length (diffIDs s))) as [E1|]; [|done].
    destruct (Nat.eqb_spec (List.length (diffIDs s)) (List.length (compressedLayers s))) as [E2|]; [|done].
    destruct (Nat.eqb_spec (List.length (compressedLayers s)) (List.length (uncomressedLayers s))) as [E3|]; [|done].
    by destruct Hne.
Qed.

Lemma layers_tokens_or_length_error_witness :
  layers (mkImageSpec "img" "" "" ["d0"; "d1"] ["f0"; "f1"] ["c0"; "c1"] ["u0"; "u1"])
    = Ok ["c0,u0,d0,f0"; "c1,u1,d1,f1"] /\
  layers (mkImageSpec "img" "" "" ["d0"; "d1"] ["f0"] ["c0"; "c1"] ["u0"; "u1"])
    = Err (ErrUnequalLengths "img" 2 1 2 2).
Proof.
  split.
  - destruct (proj1 (layers_tokens_or_length_error
        (mkImageSpec "img" "" "" ["d0"; "d1"] ["f0"; "f1"] ["c0"; "c1"] ["u0"; "u1"])))
      as (tokens & H & _); [simpl; auto|].
    reflexivity.
  - apply (proj2 (layers_tokens_or_length_error
        (mkImageSpec "img" "" "" ["d0"; "d1"] ["f0"] ["c0"; "c1"] ["u0"; "u1"]))).
    simpl. intros (H & _). discriminate H.
Defined.

(** C9. Each item of an image spec is cut at its first '=' and nowhere
    else: an item with an '=' in it is assigned with everything after the
    first '=' as its value, and the error for a malformed pair is returned
    exactly for an item with no '=' in it (the first such item, reached
    once the items before it have parsed). *)
Theorem parseImageSpec_cuts_at_first_equals :
  (forall k v rest acc,
     ~ hasByte "=" k ->
     SplitN (k +:+ "=" +:+ v) "=" 2 = [k; v] /\
     parseItems ((k +:+ "=" +:+ v) :: rest) acc =
       match setField acc k v with
       | Ok acc' => parseItems rest acc'
       | Err e => Err e
       end) /\
  (forall spec s n,
     parseImageSpec spec = Err (ErrSplitFields s n) <->
     n = 1 /\ ~ hasByte "=" s /\
     exists pre post acc,
       Split spec ";" = pre ++ s :: post /\ parseItems pre emptySpec = Ok acc) /\
  (forall spec,
     Forall (hasByte "=") (Split spec ";") ->
     forall s n, parseImageSpec spec <> Err (ErrSplitFields s n)).
Proof.
  split; [|split].
  - intros k v rest acc Hk.
    assert (Count "=" k = 0) as Hc.
    { destruct (Count "=" k) eqn:E; [done|]. exfalso. apply Hk, hasByte_Count. lia. }
    split; [by apply SplitN2_cut | by apply parseItems_cut].
  - intros spec s n. apply parseItems_split_error.
  - intros spec Hall s n H.
    apply parseItems_split_error in H as (_ & Hs & pre & post & acc & Hsplit & _).
    rewrite Hsplit in Hall. apply Forall_app in Hall as [_ Hall].
    by apply Forall_cons in Hall as [Hs' _].
Qed.

Lemma parseImageSpec_cuts_at_first_equals_witness :
  parseItems ["name=a=b"] emptySpec = Ok (mkImageSpec "a=b" "" "" [] [] [] []) /\
  parseImageSpec "name=a;tarball" = Err (ErrSplitFields "tarball" 1).
Proof.
  split.
  - destruct (proj1 parseImageSpec_cuts_at_first_equals "name" "a=b" [] emptySpec) as [_ H].
    + intros Hk. apply hasByte_Count in Hk. apply Hk. reflexivity.
    + exact H.
  - apply (proj1 (proj2 parseImageSpec_cuts_at_first_equals) "name=a;tarball" "tarball" 1).
    split; [reflexivity|]. split.
    + intros Hk. apply hasByte_Count in Hk. apply Hk. reflexivity.
    + exists ["name=a"], [], (mkImageSpec "a" "" "" [] [] [] []). split; reflexivity.
Defined.

(** ** The default string resolver *)

Section ResolveString.
Context `{X : Externals}.

Lemma markSeen_resolvedImages s r : resolvedImages (markSeen s r) = resolvedImages r.
Proof. unfold markSeen. destruct (decide (s ∈ unseen r)); reflexivity. Qed.

Lemma markSeen_unseen s r : unseen (markSeen s r) = unseen r ∖ {[s]}.
Proof. unfold markSeen. destruct (decide (s ∈ unseen r)); simpl; set_solver. Qed.

Lemma markSeen_numDocs s r : numDocs (markSeen s r) = numDocs r.
Proof. unfold markSeen. destruct (decide (s ∈ unseen r)); reflexivity. Qed.

Lemma markSeen_idem s r : markSeen s (markSeen s r) = markSeen s r.
Proof.
  unfold markSeen at 1. destruct (decide _) as [H|H]; [|done].
  rewrite markSeen_unseen in H. set_solver.
Qed.

(** The five ways out of [resolveString], spelled out. *)
Lemma resolveString_cases s r w :
  resolveString s (r, w) =
  let r1 := markSeen s r in
  match resolvedImages r !! s with
  | Some o => ((r1, w), Ok o)
  | None =>
      let cs1 := calls w ++ [CallNewTag s StrictValidation] in
      match NewTag s StrictValidation with
      | Err _ => ((r1, mkWorld (env w) cs1), Ok s)
      | Ok t =>
          let cs2 := cs1 ++ [CallKeychainResolve (Context t)] in
          match KeychainResolve (Context t) (env w) with
          | (e2, Err _) => ((r1, mkWorld e2 cs2), Ok s)
          | (e2, Ok auth) =>
              let cs3 := cs2 ++ [CallRemoteGet t] in
              match remoteGet t auth e2 with
              | (e3, Err _) => ((r1, mkWorld e3 cs3), Ok s)
              | (e3, Ok desc) =>
                  let resolved :=
                    RegistryStr (Context t) +:+ "/" +:+ RepositoryStr (Context t)
                      +:+ "@" +:+ Digest desc in
                  ((mkResolver (<[s := resolved]> (resolvedImages r1)) (unseen r1)
                      (numDocs r1), mkWorld e3 cs3), Ok resolved)
              end
          end
      end
  end.
Proof.
  unfold resolveString, mbind, M_bind, modifyResolver, getResolver, mret, M_ret,
    orReturn, liftW, callNewTag, callKeychainResolve, callRemoteGet, logged.
  cbv zeta. cbn [fst snd]. rewrite !markSeen_resolvedImages.
  destruct (resolvedImages r !! s); [reflexivity|].
  cbn [env calls].
  destruct (NewTag s StrictValidation) as [t|]; [|reflexivity].
  cbn [fst snd env calls].
  destruct (KeychainResolve (Context t) (env w)) as [e2 [auth|]]; [|reflexivity].
  cbn [fst snd env calls].
  destruct (remoteGet t auth e2) as [e3 [desc|]];
    cbn [fst snd env calls]; rewrite ?markSeen_resolvedImages; reflexivity.
Qed.

Lemma fetches_snoc cs c : fetches (cs ++ [c]) = fetches cs + (if isFetch c then 1 else 0).
Proof.
  unfold fetches. rewrite List.filter_app, List.length_app. simpl.
  by destruct (isFetch c).
Qed.

End ResolveString.

(** ** The publisher *)

Lemma assignAll_lookup_notin kvs : forall (m : gmap string string) k,
  k ∉ kvs.*1 -> assignAll m kvs !! k = m !! k.
Proof.
  induction kvs as [|[k' v'] kvs IH]; intros m k Hk; simpl; [done|].
  rewrite fmap_cons, not_elem_of_cons in Hk. destruct Hk as [Hne Hk]. simpl in Hne.
  unfold assignAll in *. simpl. rewrite IH by done. by rewrite lookup_insert_ne.
Qed.

Lemma assignAll_lookup_last kvs : forall (m : gmap string string) j k v,
  kvs !! j = Some (k, v) ->
  (forall j' kv, j < j' -> kvs !! j' = Some kv -> kv.1 <> k) ->
  assignAll m kvs !! k = Some v.
Proof.
  induction kvs as [|[k' v'] kvs IH]; intros m j k v Hj Hlast; [done|].
  destruct j as [|j]; simpl in Hj.
  - injection Hj as -> ->.
    change (assignAll m ((k, v) :: kvs)) with (assignAll (<[k := v]> m) kvs).
    rewrite assignAll_lookup_notin; [by rewrite lookup_insert_eq|].
    intros Hin. apply list_elem_of_fmap in Hin as ([k1 v1] & Hk1 & Hin). simpl in Hk1. subst k1.
    apply list_elem_of_lookup in Hin as [i Hi].
    by apply (Hlast (S i) (k, v1)); [lia| |].
  - change (assignAll m ((k', v') :: kvs)) with (assignAll (<[k' := v']> m) kvs).
    apply (IH _ j); [done|].
    intros j' kv Hlt Hkv. apply (Hlast (S j') kv); [lia|done].
Qed.

Lemma dom_assignAll kvs : forall (m : gmap string string),
  dom (assignAll m kvs) = dom m ∪ list_to_set (kvs.*1).
Proof.
  induction kvs as [|[k v] kvs IH]; intros m; simpl.
  - unfold assignAll. simpl. set_solver.
  - change (assignAll m ((k, v) :: kvs)) with (assignAll (<[k := v]> m) kvs).
    rewrite IH, dom_insert_L. set_solver.
Qed.

Section Publish.
Context `{X : Externals}.

Lemma published_length stamper specs w w' ds :
  published stamper specs w w' ds -> List.length ds = List.length specs.
Proof. induction 1; simpl; congruence. Qed.

Lemma published_functional stamper specs w w1 ds1 :
  published stamper specs w w1 ds1 ->
  forall w2 ds2, published stamper specs w w2 ds2 -> w1 = w2 /\ ds1 = ds2.
Proof.
  induction 1 as [|s rest w wa wb d ds H1 H2 IH]; intros w2 ds2 Hp; inversion Hp; subst.
  - done.
  - match goal with
    | H : publishSingle s stamper w = _ |- _ => rewrite H1 in H; injection H as <- <-
    end.
    match goal with
    | H : published stamper rest wa _ _ |- _ => destruct (IH _ _ H) as [-> ->]
    end.
    done.
Qed.

(** One run of the loop of [publish], whichever way it ends. *)
Lemma publishLoop_run stamper specs : forall ov un w,
  match publishLoop specs stamper ov un w with
  | (w', Ok (ov', un')) =>
      exists ds, published stamper specs w w' ds /\
        ov' = assignAll ov (zip (name <$> specs) ds) /\
        un' = list_to_set (name <$> specs) ∪ un
  | (w', Err e) =>
      exists pre s post w1 ds,
        specs = pre ++ s :: post /\
        published stamper pre w w1 ds /\
        publishSingle s stamper w1 = (w', Err e)
  end.
Proof.
  induction specs as [|s specs IH]; intros ov un w.
  - simpl. exists []. split; [constructor|]. split; [done|]. set_solver.
  - cbn [publishLoop]. unfold mbind, M_bind.
    destruct (publishSingle s stamper w) as [w1 [d|e]] eqn:Hs.
    + specialize (IH (<[name s := d]> ov) ({[name s]} ∪ un) w1).
      destruct (publishLoop specs stamper _ _ w1) as [w' [[ov' un']|e]].
      * destruct IH as (ds & Hp & -> & ->).
        exists (d :: ds). split; [by econstructor|]. split; [done|].
        rewrite fmap_cons. simpl. set_solver.
      * destruct IH as (pre & s' & post & w2 & ds & -> & Hp & Hfail).
        exists (s :: pre), s', post, w2, (d :: ds).
        split; [done|]. split; [by econstructor|done].
    + exists [], s, specs, w, []. split; [done|]. split; [constructor|done].
Qed.


End Publish.

Section ResolveStringFacts.
Context `{X : Externals}.


(** What a call leaves behind, by the way it ended: a cache hit, a
    fail-open return (with or without a fetch having been tried), or a
    fresh resolution. *)
Lemma resolveString_effect s r w st1 o1 :
  resolveString s (r, w) = (st1, o1) ->
  exists v, o1 = Ok v /\
    unseen st1.1 = unseen r ∖ {[s]} /\
    numDocs st1.1 = numDocs r /\
    ((resolvedImages r !! s = Some v /\ st1 = (markSeen s r, w)) \/
     (resolvedImages r !! s = None /\ v = s /\
      resolvedImages st1.1 = resolvedImages r /\
      (fetches (calls st1.2) = fetches (calls w) \/
       fetches (calls st1.2) = fetches (calls w) + 1)) \/
     (resolvedImages r !! s = None /\
      is_ok (NewTag s StrictValidation) = true /\
      resolvedImages st1.1 = <[s := v]> (resolvedImages r) /\
      fetches (calls st1.2) = fetches (calls w) + 1)).
Proof.
  rewrite resolveString_cases. cbv zeta.
  destruct (resolvedImages r !! s) as [o|] eqn:Hc.
  { intros [= <- <-]. exists o. cbn [fst snd].
    rewrite markSeen_unseen, markSeen_numDocs. by repeat split; try left. }
  destruct (NewTag s StrictValidation) as [t|] eqn:Ht.
  2:{ intros [= <- <-]. exists s. cbn [fst snd calls].
      rewrite markSeen_unseen, markSeen_numDocs, markSeen_resolvedImages, fetches_snoc.
      repeat split; try done. right; left. repeat split; try done. left. simpl. lia. }
  destruct (KeychainResolve (Context t) (env w)) as [e2 [auth|]].
  2:{ intros [= <- <-]. exists s. cbn [fst snd calls].
      rewrite markSeen_unseen, markSeen_numDocs, markSeen_resolvedImages, !fetches_snoc.
      repeat split; try done. right; left. repeat split; try done. left. simpl. lia. }
  destruct (remoteGet t auth e2) as [e3 [desc|]].
  2:{ intros [= <- <-]. exists s. cbn [fst snd calls].
      rewrite markSeen_unseen, markSeen_numDocs, markSeen_resolvedImages, !fetches_snoc.
      repeat split; try done. right; left. repeat split; try done. right. simpl. lia. }
  intros [= <- <-]. eexists. split; [reflexivity|]. cbn [fst snd calls resolvedImages unseen numDocs].
  rewrite markSeen_unseen, markSeen_numDocs, markSeen_resolvedImages, !fetches_snoc.
  repeat split; try done. right; right. repeat split; try done. simpl. lia.
Qed.


End ResolveStringFacts.

(** C1. The default string resolver never returns an error; and on a
    string that is not a cache key and that the strict tag parser rejects
    it returns the string itself and leaves the cache as it was. *)
Theorem resolveString_never_fails `{X : Externals} (s : string) (st : rstate) :
  exists st' o,
    resolveString s st = (st', Ok o) /\
    (resolvedImages st.1 !! s = None ->
     is_ok (NewTag s StrictValidation) = false ->
     o = s /\ resolvedImages st'.1 = resolvedImages st.1).
Proof.
  destruct st as [r w].
  destruct (resolveString s (r, w)) as [st1 o1] eqn:H.
  destruct (resolveString_effect _ _ _ _ _ H) as (v & -> & _ & _ & Hpath).
  exists st1, v. split; [done|]. cbn [fst]. intros Hmiss Hparse.
  destruct Hpath as [[Hhit _]|[(_ & -> & Hsame & _)|(_ & Hok & _)]].
  - congruence.
  - done.
  - congruence.
Qed.

Lemma resolveString_never_fails_witness :
  exists st' o,
    resolveString (X := Fake.externals) "not-an-image" Fake.emptyState = (st', Ok o) /\
    o = "not-an-image" /\ resolvedImages st'.1 = ∅.
Proof.
  destruct (resolveString_never_fails (X := Fake.externals) "not-an-image" Fake.emptyState)
    as (st' & o & Hrun & Hpass).
  exists st', o. split; [exact Hrun|].
  apply Hpass; reflexivity.
Defined.

(** C4. The unseen set starts as the set of published names; a call of
    the string resolver on [s] keeps every cache entry with its value,
    and leaves the unseen set equal to the old one without [s], on every
    way out of the call. *)
Theorem resolver_state_only_grows_cache_and_shrinks_unseen `{X : Externals} :
  (forall specs stamper w w' overrides un,
     publish specs stamper w = (w', Ok (overrides, un)) ->
     un = list_to_set (name <$> specs) /\ dom overrides = un) /\
  (forall s st st' o,
     resolveString s st = (st', o) ->
     (forall k v, resolvedImages st.1 !! k = Some v -> resolvedImages st'.1 !! k = Some v) /\
     unseen st'.1 = unseen st.1 ∖ {[s]} /\
     (s ∉ unseen st'.1) /\
     (unseen st'.1 ⊆ unseen st.1)).
Proof.
  split.
  - intros specs stamper w w' overrides un H.
    pose proof (publishLoop_run stamper specs ∅ ∅ w) as Hrun.
    unfold publish in H. rewrite H in Hrun.
    destruct Hrun as (ds & Hp & -> & ->).
    apply published_length in Hp.
    rewrite dom_assignAll, fst_zip by (rewrite length_fmap; lia).
    set_solver.
  - intros s [r w] st' o H.
    destruct (resolveString_effect _ _ _ _ _ H) as (v & -> & Hun & _ & Hpath).
    cbn [fst]. split; [|rewrite Hun; set_solver].
    intros k u Hk.
    destruct Hpath as [[_ ->]|[(_ & _ & -> & _)|(Hmiss & _ & -> & _)]].
    + cbn [fst]. by rewrite markSeen_resolvedImages.
    + done.
    + rewrite lookup_insert_ne; [done|]. congruence.
Qed.

Lemma resolver_state_only_grows_cache_and_shrinks_unseen_witness :
  let specs := [Fake.spec "gcr.io/foo/bar:v1" "c1"; Fake.spec "gcr.io/foo/baz:v2" "c2"] in
  exists w' overrides un st' o,
    publish (X := Fake.externals) specs id Fake.emptyWorld = (w', Ok (overrides, un)) /\
    un = {["gcr.io/foo/bar:v1"; "gcr.io/foo/baz:v2"]} /\
    dom overrides = un /\
    resolveString (X := Fake.externals) "gcr.io/foo/bar:v1" (mkResolver overrides un 0, w')
      = (st', o) /\
    unseen st'.1 = un ∖ {["gcr.io/foo/bar:v1"]} /\
    forall v, overrides !! "gcr.io/foo/bar:v1" = Some v ->
              resolvedImages st'.1 !! "gcr.io/foo/bar:v1" = Some v.
Proof.
  intros specs.
  destruct (publish (X := Fake.externals) specs id Fake.emptyWorld)
    as [w' [[overrides un]|e]] eqn:Hpub; [|discriminate Hpub].
  destruct (resolveString (X := Fake.externals) "gcr.io/foo/bar:v1"
              (mkResolver overrides un 0, w')) as [st' o] eqn:Hres.
  destruct (resolver_state_only_grows_cache_and_shrinks_unseen (X := Fake.externals))
    as [Hstart Hstep].
  destruct (Hstart _ _ _ _ _ _ Hpub) as [Hun Hdom].
  destruct (Hstep _ _ _ _ Hres) as (Hcache & Hshrink & _ & _).
  exists w', overrides, un, st', o.
  split; [reflexivity|]. split; [rewrite Hun; simpl; set_solver|].
  split; [exact Hdom|]. split; [exact Hres|]. split; [exact Hshrink|].
  cbn [fst resolvedImages] in Hcache.
  exact (Hcache _).
Defined.




(** ** Sets and maps built from lists with repeated names *)

Lemma size_add_le (x : string) (S : gset string) : size ({[x]} ∪ S) <= 1 + size S.
Proof.
  rewrite size_union_alt, size_singleton.
  pose proof (subseteq_size (S ∖ {[x]}) S ltac:(set_solver)). lia.
Qed.

Lemma filter_none {A} (P : A -> Prop) `{forall x, Decision (P x)} (l : list A) :
  Forall (fun x => ~ P x) l -> filter P l = [].
Proof.
  induction 1 as [|x l Hx _ IH]; [done|]. by rewrite filter_cons_False.
Qed.

Lemma size_list_to_set_le (l : list string) :
  size (list_to_set l : gset string) <= List.length l.
Proof.
  induction l as [|x l IH].
  - rewrite list_to_set_nil, size_empty. simpl. lia.
  - rewrite list_to_set_cons. cbn [List.length].
    pose proof (size_add_le x (list_to_set l)). lia.
Qed.

Lemma size_list_to_set_repeated (l : list string) : forall i j x,
  i < j -> l !! i = Some x -> l !! j = Some x ->
  size (list_to_set l : gset string) < List.length l.
Proof.
  induction l as [|y l IH]; intros i j x Hlt Hi Hj; [done|].
  destruct j as [|j]; [lia|]. simpl in Hj.
  destruct i as [|i]; simpl in Hi.
  - injection Hi as ->.
    assert (x ∈ (list_to_set l : gset string)) as Hin.
    { apply elem_of_list_to_set, list_elem_of_lookup. by exists j. }
    rewrite list_to_set_cons. cbn [List.length].
    replace ({[x]} ∪ list_to_set l) with (list_to_set l : gset string) by set_solver.
    pose proof (size_list_to_set_le l). lia.
  - rewrite list_to_set_cons. cbn [List.length].
    pose proof (IH i j x ltac:(lia) Hi Hj).
    pose proof (size_add_le y (list_to_set l)). lia.
Qed.

Lemma filter_key_once {V} (l : list (string * V)) k v :
  NoDup l.*1 -> (k, v) ∈ l ->
  filter (fun kv => kv.1 = k) l = [(k, v)].
Proof.
  induction l as [|[k' v'] l IH]; intros Hnd Hin; [by apply elem_of_nil in Hin|].
  rewrite fmap_cons in Hnd. apply NoDup_cons in Hnd as [Hk' Hnd]. simpl in Hk'.
  apply elem_of_cons in Hin as [[= <- <-]|Hin].
  - rewrite filter_cons_True by done. f_equal.
    apply filter_none, Forall_forall. intros [k1 v1] Hin1 Hk1. simpl in Hk1. subst k1.
    apply Hk'. apply list_elem_of_fmap. by exists (k, v1).
  - rewrite filter_cons_False; [by apply IH|].
    simpl. intros ->. apply Hk'. apply list_elem_of_fmap. by exists (k, v).
Qed.

Lemma filter_elem_once (l : list string) x :
  NoDup l -> x ∈ l -> filter (fun y => y = x) l = [x].
Proof.
  induction l as [|y l IH]; intros Hnd Hin; [by apply elem_of_nil in Hin|].
  apply NoDup_cons in Hnd as [Hy Hnd].
  apply elem_of_cons in Hin as [<-|Hin].
  - rewrite filter_cons_True by done. f_equal.
    apply filter_none, Forall_forall. by intros z Hz ->.
  - rewrite filter_cons_False; [by apply IH|]. by intros ->.
Qed.



(** C10. When two specs carry one name and every publish succeeds, the
    overrides map has one entry for the name, holding the digest
    reference of the later spec (the last one with that name), and the
    unseen set has the name once; the unseen set is then smaller than the
    list of specs. *)
Theorem publish_repeated_name_last_wins `{X : Externals}
    (specs : list imageSpec) (stamper : Stamper) (w w' : world)
    (overrides : gmap string string) (un : gset string)
    (i j : nat) (s1 s2 : imageSpec) :
  publish specs stamper w = (w', Ok (overrides, un)) ->
  i < j ->
  specs !! i = Some s1 ->
  specs !! j = Some s2 ->
  name s1 = name s2 ->
  (forall k s', j < k -> specs !! k = Some s' -> name s' <> name s2) ->
  exists ds d2,
    published stamper specs w w' ds /\
    ds !! j = Some d2 /\
    overrides !! name s2 = Some d2 /\
    filter (fun kv => kv.1 = name s2) (map_to_list overrides) = [(name s2, d2)] /\
    filter (fun n => n = name s2) (elements un) = [name s2] /\
    size un < List.length specs /\
    size overrides = size un.
Proof.
  intros Hpub Hlt Hi Hj Hname Hlast.
  pose proof (publishLoop_run stamper specs ∅ ∅ w) as Hrun.
  unfold publish in Hpub. rewrite Hpub in Hrun.
  destruct Hrun as (ds & Hp & -> & ->).
  pose proof (published_length _ _ _ _ _ Hp) as Hlen.
  destruct (lookup_lt_is_Some_2 ds j) as [d2 Hd2].
  { rewrite Hlen. by eapply lookup_lt_Some. }
  assert (assignAll ∅ (zip (name <$> specs) ds) !! name s2 = Some d2) as Hov.
  { apply (assignAll_lookup_last _ _ j).
    - apply lookup_zip_with_Some. exists (name s2), d2.
      split; [done|]. split; [by rewrite list_lookup_fmap, Hj|done].
    - intros k [n v] Hk Hkv. simpl.
      apply lookup_zip_with_Some in Hkv as (n1 & v1 & [= <- <-] & Hn & _).
      rewrite list_lookup_fmap in Hn.
      destruct (specs !! k) as [s'|] eqn:Hs'; [|done].
      injection Hn as <-. by eapply Hlast. }
  assert (dom (assignAll ∅ (zip (name <$> specs) ds))
          = (list_to_set (name <$> specs) ∪ ∅ : gset string)) as Hdom.
  { rewrite dom_assignAll, fst_zip by (rewrite length_fmap; lia). set_solver. }
  exists ds, d2. split; [done|]. split; [done|]. split; [done|].
  split; [|split; [|split]].
  - apply filter_key_once; [apply NoDup_fst_map_to_list|].
    by apply elem_of_map_to_list.
  - apply filter_elem_once; [apply NoDup_elements|].
    apply elem_of_elements. apply elem_of_union_l, elem_of_list_to_set.
    apply list_elem_of_fmap. exists s2. split; [done|].
    apply list_elem_of_lookup. by exists j.
  - replace (list_to_set (name <$> specs) ∪ ∅) with
      (list_to_set (name <$> specs) : gset string) by set_solver.
    rewrite <- (length_fmap name specs).
    apply (size_list_to_set_repeated _ i j (name s2)); [done| |].
    + by rewrite list_lookup_fmap, Hi, <- Hname.
    + by rewrite list_lookup_fmap, Hj.
  - by rewrite <- Hdom, size_dom.
Qed.

Lemma publish_repeated_name_last_wins_witness :
  let specs := [Fake.spec "gcr.io/foo/bar:v1" "c1"; Fake.spec "gcr.io/foo/bar:v1" "c2"] in
  exists w' overrides un,
    publish (X := Fake.externals) specs id Fake.emptyWorld = (w', Ok (overrides, un)) /\
    overrides !! "gcr.io/foo/bar:v1" = Some "gcr.io/foo/bar@sha256:c2" /\
    size un < 2 /\
    size overrides = size un.
Proof.
  intros specs.
  destruct (publish (X := Fake.externals) specs id Fake.emptyWorld)
    as [w' [[overrides un]|e]] eqn:Hpub; [|discriminate Hpub].
  destruct (publish_repeated_name_last_wins (X := Fake.externals)
              specs id Fake.emptyWorld w' overrides un 0 1
              (Fake.spec "gcr.io/foo/bar:v1" "c1") (Fake.spec "gcr.io/foo/bar:v1" "c2") Hpub)
    as (ds & d2 & Hp & Hd2 & Hov & _ & _ & Hsize & Heq).
  - lia.
  - reflexivity.
  - reflexivity.
  - reflexivity.
  - intros k s' Hk Hs'. destruct k as [|[|k]]; [lia|lia|discriminate Hs'].
  - exists w', overrides, un. split; [reflexivity|].
    split; [|split; [exact Hsize|exact Heq]].
    injection Hpub as _ <- _. reflexivity.
Defined.

(** ** Maps keyed by dynamic values *)

Lemma item_eqb_eq : forall a b : item, item_eqb a b = true <-> a = b.
Proof.
  fix IH 1. intros a b.
  destruct a as [|s|n|x|s|l|m], b as [|s'|n'|x'|s'|l'|m']; simpl;
    try (split; [discriminate|congruence]); try (split; congruence).
  - rewrite String.eqb_eq. split; congruence.
  - rewrite Z.eqb_eq. split; congruence.
  - rewrite Bool.eqb_true_iff. split; congruence.
  - rewrite String.eqb_eq. split; congruence.
  - revert l'. induction l as [|y l IHl]; intros [|y' l']; simpl;
      try (split; [discriminate|congruence]); try (split; congruence).
    rewrite andb_true_iff, IH, IHl. split.
    + intros [-> [= ->]]. done.
    + intros [= -> ->]. done.
  - revert m'. induction m as [|[k v] m IHm]; intros [|[k' v'] m']; simpl;
      try (split; [discriminate|congruence]); try (split; congruence).
    rewrite !andb_true_iff, !IH, IHm. split.
    + intros [[-> ->] [= ->]]. done.
    + intros [= -> -> ->]. done.
Qed.

Lemma item_eqb_refl a : item_eqb a a = true.
Proof. by apply item_eqb_eq. Qed.

Lemma item_eqb_neq a b : item_eqb a b = false <-> a <> b.
Proof.
  rewrite <- item_eqb_eq. destruct (item_eqb a b); split; congruence.
Qed.

Lemma mapGet_mapSet m k v k' :
  mapGet (mapSet m k v) k' = if item_eqb k k' then Some v else mapGet m k'.
Proof.
  induction m as [|[k0 v0] m IH]; simpl.
  - done.
  - destruct (item_eqb k0 k) eqn:E0; simpl.
    + apply item_eqb_eq in E0 as ->. by destruct (item_eqb k k').
    + rewrite IH. destruct (item_eqb k0 k') eqn:E1; [|done].
      apply item_eqb_eq in E1 as ->.
      destruct (item_eqb k k') eqn:E2; [|done].
      apply item_eqb_eq in E2 as ->. by rewrite item_eqb_refl in E0.
Qed.

Lemma mapGet_elem m k v : mapGet m k = Some v -> (k, v) ∈ m.
Proof.
  induction m as [|[k0 v0] m IH]; simpl; [done|].
  destruct (item_eqb k0 k) eqn:E.
  - apply item_eqb_eq in E as ->. intros [= ->]. apply list_elem_of_here.
  - intros H. apply list_elem_of_further. by apply IH.
Qed.

Lemma mapGet_None m k : mapGet m k = None <-> k ∉ m.*1.
Proof.
  induction m as [|[k0 v0] m IH]; simpl.
  - split; [intros _; apply not_elem_of_nil|done].
  - rewrite not_elem_of_cons. destruct (item_eqb k0 k) eqn:E.
    + apply item_eqb_eq in E as ->. split; [done|]. by intros [? _].
    + apply item_eqb_neq in E. rewrite IH. split; [by split|by intros [_ ?]].
Qed.

Lemma elem_mapGet m k v : NoDup m.*1 -> (k, v) ∈ m -> mapGet m k = Some v.
Proof.
  induction m as [|[k0 v0] m IH]; intros Hnd Hin; [by apply elem_of_nil in Hin|].
  rewrite fmap_cons in Hnd. apply NoDup_cons in Hnd as [Hk0 Hnd]. simpl in *.
  apply elem_of_cons in Hin as [[= <- <-]|Hin].
  - by rewrite item_eqb_refl.
  - destruct (item_eqb k0 k) eqn:E; [|by apply IH].
    apply item_eqb_eq in E as ->. exfalso. apply Hk0.
    apply list_elem_of_fmap. by exists (k, v).
Qed.

Lemma mapSet_keys m k v :
  (mapSet m k v).*1 =
  match mapGet m k with Some _ => m.*1 | None => m.*1 ++ [k] end.
Proof.
  induction m as [|[k0 v0] m IH]; [done|]. cbn [mapSet mapGet].
  destruct (item_eqb k0 k) eqn:E; [done|].
  rewrite !fmap_cons, IH. by destruct (mapGet m k).
Qed.

Lemma mapSet_NoDup m k v : NoDup m.*1 -> NoDup (mapSet m k v).*1.
Proof.
  intros Hnd. rewrite mapSet_keys.
  destruct (mapGet m k) eqn:E; [done|].
  apply NoDup_app. split; [done|]. split; [|apply NoDup_singleton].
  intros x Hx Hk. apply list_elem_of_singleton in Hk as ->.
  by apply mapGet_None in E.
Qed.

Lemma mapSet_length m k v :
  List.length (mapSet m k v) =
  match mapGet m k with Some _ => List.length m | None => S (List.length m) end.
Proof.
  rewrite <- !(length_fmap fst), mapSet_keys.
  destruct (mapGet m k); [done|]. rewrite length_app. simpl. lia.
Qed.

Lemma mapGet_app m1 m2 k :
  mapGet (m1 ++ m2) k =
  match mapGet m1 k with Some v => Some v | None => mapGet m2 k end.
Proof.
  induction m1 as [|[k0 v0] m1 IH]; simpl; [done|].
  by destruct (item_eqb k0 k).
Qed.

Lemma setAll_NoDup ps : forall out, NoDup out.*1 -> NoDup (setAll out ps).*1.
Proof.
  induction ps as [|[k v] ps IH]; intros out Hnd; [done|].
  apply IH. by apply mapSet_NoDup.
Qed.

(** Reading a key after a run of assignments gives the value of the last
    assignment to that key, and what the map held before if there was
    none. *)
Lemma mapGet_setAll ps : forall out k,
  mapGet (setAll out ps) k =
  match mapGet (reverse ps) k with Some v => Some v | None => mapGet out k end.
Proof.
  induction ps as [|[k0 v0] ps IH]; intros out k; [done|].
  change (setAll out ((k0, v0) :: ps)) with (setAll (mapSet out k0 v0) ps).
  rewrite IH, reverse_cons, mapGet_app, mapGet_mapSet. simpl.
  destruct (mapGet (reverse ps) k); [done|]. by destruct (item_eqb k0 k).
Qed.

Lemma setAll_length_le ps : forall out,
  List.length (setAll out ps) <= List.length out + List.length ps.
Proof.
  induction ps as [|[k v] ps IH]; intros out; simpl; [lia|].
  change (setAll out ((k, v) :: ps)) with (setAll (mapSet out k v) ps).
  specialize (IH (mapSet out k v)). rewrite mapSet_length in IH.
  destruct (mapGet out k); lia.
Qed.

Lemma setAll_length_present ps : forall out j k v,
  is_Some (mapGet out k) -> ps !! j = Some (k, v) ->
  List.length (setAll out ps) < List.length out + List.length ps.
Proof.
  induction ps as [|[k0 v0] ps IH]; intros out j k v Hk Hj; [done|].
  change (setAll out ((k0, v0) :: ps)) with (setAll (mapSet out k0 v0) ps).
  destruct j as [|j]; simpl in Hj.
  - injection Hj as -> ->.
    pose proof (setAll_length_le ps (mapSet out k v)) as Hle.
    rewrite mapSet_length in Hle. destruct Hk as [x Hx]. rewrite Hx in Hle. simpl. lia.
  - assert (is_Some (mapGet (mapSet out k0 v0) k)) as Hk'.
    { rewrite mapGet_mapSet. by destruct (item_eqb k0 k). }
    pose proof (IH _ j k v Hk' Hj) as Hlt.
    rewrite mapSet_length in Hlt. simpl. destruct (mapGet out k0); lia.
Qed.

Lemma setAll_length_repeated ps : forall out i j k vi vj,
  i < j -> ps !! i = Some (k, vi) -> ps !! j = Some (k, vj) ->
  List.length (setAll out ps) < List.length out + List.length ps.
Proof.
  induction ps as [|[k0 v0] ps IH]; intros out i j k vi vj Hlt Hi Hj; [done|].
  change (setAll out ((k0, v0) :: ps)) with (setAll (mapSet out k0 v0) ps).
  destruct j as [|j]; [lia|]. simpl in Hj.
  destruct i as [|i]; simpl in Hi.
  - injection Hi as -> ->.
    assert (is_Some (mapGet (mapSet out k vi) k)) as Hk.
    { rewrite mapGet_mapSet, item_eqb_refl. by eexists. }
    pose proof (setAll_length_present ps _ j k vj Hk Hj) as Hp.
    rewrite mapSet_length in Hp. simpl. destruct (mapGet out k); lia.
  - pose proof (IH (mapSet out k0 v0) i j k vi vj ltac:(lia) Hi Hj) as Hp.
    rewrite mapSet_length in Hp. simpl. destruct (mapGet out k0); lia.
Qed.

(** ** The walk *)

Section WalkFacts.
Context `{X : Externals}.
Variable strResolver : string -> M rstate string.

Lemma resolvedItems_length l st st' out :
  resolvedItems strResolver l st st' out -> List.length out = List.length l.
Proof. induction 1; simpl; congruence. Qed.

Lemma resolvedPairs_length m st st' ps :
  resolvedPairs strResolver m st st' ps -> List.length ps = List.length m.
Proof. induction 1; simpl; congruence. Qed.

(** One run of the loop of [resolveList], whichever way it ends. *)
Lemma resolveListLoop_run l : forall out st,
  match resolveListLoop strResolver l out st with
  | (st', Ok res) =>
      exists outs, resolvedItems strResolver l st st' outs /\ res = out ++ outs
  | (st', Err e) =>
      exists pre i post st1 outs e0,
        l = pre ++ i :: post /\
        resolvedItems strResolver pre st st1 outs /\
        resolveItem strResolver i st1 = (st', Err e0) /\
        e = ErrListItem i e0
  end.
Proof.
  induction l as [|i l IH]; intros out st.
  - simpl. exists []. split; [constructor|by rewrite app_nil_r].
  - cbn [resolveListLoop]. unfold mbind, M_bind, wrapErr.
    destruct (resolveItem strResolver i st) as [st1 [o|e0]] eqn:Hi.
    + specialize (IH (out ++ [o]) st1).
      destruct (resolveListLoop strResolver l (out ++ [o]) st1) as [st' [res|e]].
      * destruct IH as (outs & Hr & ->). exists (o :: outs).
        split; [by econstructor|by rewrite <- app_assoc].
      * destruct IH as (pre & i' & post & st2 & outs & e1 & -> & Hr & Hfail & ->).
        exists (i :: pre), i', post, st2, (o :: outs), e1.
        split; [done|]. split; [by econstructor|done].
    + exists [], i, l, st, [], e0. split; [done|]. split; [constructor|done].
Qed.

(** One successful run of the loop of [resolveMap]. *)
Lemma resolveMapLoop_run m : forall out st st' res,
  resolveMapLoop strResolver m out st = (st', Ok res) <->
  exists ps, resolvedPairs strResolver m st st' ps /\ res = setAll out ps.
Proof.
  induction m as [|[k v] m IH]; intros out st st' res.
  - simpl. split.
    + intros [= <- <-]. exists []. split; [constructor|done].
    + intros (ps & Hr & ->). by inversion Hr; subst.
  - cbn [resolveMapLoop]. unfold mbind, M_bind, wrapErr. split.
    + destruct (resolveItem strResolver k st) as [st1 [rk|e]] eqn:Hk; [|done].
      destruct (resolveItem strResolver v st1) as [st2 [rv|e]] eqn:Hv; [|done].
      intros H. apply IH in H as (ps & Hr & ->).
      exists ((rk, rv) :: ps). split; [by econstructor|done].
    + intros (ps & Hr & ->). inversion Hr as [|? ? ? ? st1 st2 ? rk rv ps' Hk Hv Hr']; subst.
      rewrite Hk, Hv. apply IH. by exists ps'.
Qed.

(** The loops inside [resolveItem] are the loops of [resolveList] and
    [resolveMap]. *)
Lemma resolveItem_IList l st :
  resolveItem strResolver (IList l) st =
  match resolveList strResolver l st with
  | (st', Ok l') => (st', Ok (IList l'))
  | (st', Err e) => (st', Err e)
  end.
Proof.
  unfold resolveList. cbn [resolveItem]. unfold mbind at 1, M_bind at 1.
  match goal with |- match ?f l [] st with _ => _ end = _ =>
    assert (forall l out st, f l out st = resolveListLoop strResolver l out st) as ->
  end; [|done].
  clear. induction l as [|i l IH]; intros out st; [done|].
  cbn [resolveListLoop]. unfold mbind, M_bind.
  destruct (wrapErr (ErrListItem i) (resolveItem strResolver i) st) as [st1 [o|e]]; [|done].
  apply IH.
Qed.

Lemma resolveItem_IMap m st :
  resolveItem strResolver (IMap m) st =
  match resolveMap strResolver m st with
  | (st', Ok m') => (st', Ok (IMap m'))
  | (st', Err e) => (st', Err e)
  end.
Proof.
  unfold resolveMap. cbn [resolveItem]. unfold mbind at 1, M_bind at 1.
  match goal with |- match ?f m [] st with _ => _ end = _ =>
    assert (forall m out st, f m out st = resolveMapLoop strResolver m out st) as ->
  end; [|done].
  clear. induction m as [|[k v] m IH]; intros out st; [done|].
  cbn [resolveMapLoop]. unfold mbind, M_bind.
  destruct (wrapErr (ErrMapKey k) (resolveItem strResolver k) st) as [st1 [rk|e]]; [|done].
  destruct (wrapErr (ErrMapValue v) (resolveItem strResolver v) st1) as [st2 [rv|e]]; [|done].
  apply IH.
Qed.

End WalkFacts.

(** C5. A successful [resolveMap] has put every key and every value
    through [resolveItem], entry by entry in visiting order.  The result
    holds each resolved key once, with the value of the last entry that
    resolved to it; it has no more entries than the original, and fewer
    as soon as two entries resolve to one key. *)
Theorem resolveMap_last_write_wins `{X : Externals}
    (strResolver : string -> M rstate string)
    (m : list (item * item)) (st st' : rstate) (out : list (item * item)) :
  resolveMap strResolver m st = (st', Ok out) ->
  exists ps,
    resolvedPairs strResolver m st st' ps /\
    List.length ps = List.length m /\
    NoDup out.*1 /\
    (forall k, mapGet out k = mapGet (reverse ps) k) /\
    (forall k v, (k, v) ∈ out <-> mapGet (reverse ps) k = Some v) /\
    (forall i j k vi vj,
       i < j -> ps !! i = Some (k, vi) -> ps !! j = Some (k, vj) ->
       (forall j' kv, j < j' -> ps !! j' = Some kv -> kv.1 <> k) ->
       (k, vj) ∈ out /\ forall v, (k, v) ∈ out -> v = vj) /\
    List.length out <= List.length m /\
    (forall i j k vi vj,
       i < j -> ps !! i = Some (k, vi) -> ps !! j = Some (k, vj) ->
       List.length out < List.length m).
Proof.
  intros H. apply resolveMapLoop_run in H as (ps & Hr & ->).
  pose proof (resolvedPairs_length _ _ _ _ _ Hr) as Hlen.
  assert (NoDup (setAll [] ps).*1) as Hnd by (apply setAll_NoDup; constructor).
  assert (forall k, mapGet (setAll [] ps) k = mapGet (reverse ps) k) as Hget.
  { intros k. rewrite mapGet_setAll. by destruct (mapGet (reverse ps) k). }
  assert (forall k v, (k, v) ∈ setAll [] ps <-> mapGet (reverse ps) k = Some v) as Hmem.
  { intros k v. rewrite <- Hget. split; [by apply elem_mapGet|apply mapGet_elem]. }
  exists ps. repeat (split; [done|]). split; [|split].
  - intros i j k vi vj Hlt Hi Hj Hlast.
    assert (mapGet (reverse ps) k = Some vj) as Hk.
    { apply list_elem_of_split_length in Hj as (pre & post & -> & ->).
      rewrite reverse_app, reverse_cons, mapGet_app, mapGet_app. simpl.
      rewrite item_eqb_refl.
      destruct (mapGet (reverse post) k) as [v|] eqn:Hpost; [|done].
      exfalso. apply mapGet_elem in Hpost. rewrite elem_of_reverse in Hpost.
      apply list_elem_of_lookup in Hpost as [n Hn].
      apply (Hlast (List.length pre + S n) (k, v)); [lia| |done].
      rewrite lookup_app_r by lia.
      replace (List.length pre + S n - List.length pre) with (S n) by lia.
      exact Hn. }
    split; [by apply Hmem|]. intros v Hv. apply Hmem in Hv. congruence.
  - pose proof (setAll_length_le ps []). simpl in *. lia.
  - intros i j k vi vj Hlt Hi Hj.
    pose proof (setAll_length_repeated ps [] i j k vi vj Hlt Hi Hj). simpl in *. lia.
Qed.

Lemma resolveMap_last_write_wins_witness :
  let r := mkResolver {["gcr.io/foo/bar:v1" := "gcr.io/foo/bar@sha256:d"]} ∅ 0 in
  let m := [(IStr "gcr.io/foo/bar:v1", IInt 1); (IStr "gcr.io/foo/bar@sha256:d", IInt 2)] in
  exists st' out,
    resolveMap (X := Fake.externals) resolveString m (r, Fake.emptyWorld) = (st', Ok out) /\
    out = [(IStr "gcr.io/foo/bar@sha256:d", IInt 2)] /\
    List.length out < List.length m.
Proof.
  intros r m.
  destruct (resolveMap (X := Fake.externals) resolveString m (r, Fake.emptyWorld))
    as [st' [out|e]] eqn:Hrun; [|discriminate Hrun].
  destruct (resolveMap_last_write_wins (X := Fake.externals) _ _ _ _ _ Hrun)
    as (ps & Hr & _ & _ & _ & _ & _ & _ & Hfewer).
  exists st', out. split; [reflexivity|]. split.
  - injection Hrun as _ <-. reflexivity.
  - inversion Hr as [|? ? ? ? ? ? ? rk1 rv1 ps1 Hk1 Hv1 Hr1]; subst.
    inversion Hr1 as [|? ? ? ? ? ? ? rk2 rv2 ps2 Hk2 Hv2 Hr2]; subst.
    injection Hk1 as <- <-. injection Hv1 as <- <-.
    injection Hk2 as <- <-. injection Hv2 as <- <-.
    apply (Hfewer 0 1 (IStr "gcr.io/foo/bar@sha256:d") (IInt 1) (IInt 2));
      [lia|reflexivity|reflexivity].
Defined.

(** C6, as stated, fails on the position: the error of [resolveList]
    is built from the failing element and the underlying error only, so
    the same element failing at index 0 and at index 1 gives one and the
    same error, and no function of the error recovers the index. *)
Lemma resolveList_error_omits_position :
  let run := fun l =>
    (resolveList (X := Fake.externals) (Fake.rejecting "bad") l Fake.emptyState).2 in
  run [IStr "bad"] = Err (ErrListItem (IStr "bad") (ErrExternal "rejected")) /\
  run [IStr "ok"; IStr "bad"] = Err (ErrListItem (IStr "bad") (ErrExternal "rejected")) /\
  ~ exists position : error -> nat,
      forall n e, run (replicate n (IStr "ok") ++ [IStr "bad"]) = Err e -> position e = n.
Proof.
  intros run. split; [reflexivity|]. split; [reflexivity|].
  intros [position Hpos].
  pose proof (Hpos 0 _ eq_refl) as H0.
  pose proof (Hpos 1 _ eq_refl) as H1.
  congruence.
Qed.

(** C6, amended. [resolveList] applies [resolveItem] to the elements in
    order, threading the state.  When every element resolves, the result
    holds the resolved elements in that order and has the length of the
    input.  At the first element that fails the walk stops, in the state
    that call left, with an error made of the failing element and the
    underlying error; the index of the element is not part of it. *)
Theorem resolveList_in_order_first_failure_named `{X : Externals}
    (strResolver : string -> M rstate string) (l : list item) (st : rstate) :
  match resolveList strResolver l st with
  | (st', Ok out) =>
      resolvedItems strResolver l st st' out /\
      List.length out = List.length l
  | (st', Err e) =>
      exists pre i post st1 outs e0,
        l = pre ++ i :: post /\
        resolvedItems strResolver pre st st1 outs /\
        resolveItem strResolver i st1 = (st', Err e0) /\
        e = ErrListItem i e0
  end.
Proof.
  pose proof (resolveListLoop_run strResolver l [] st) as Hrun.
  unfold resolveList.
  destruct (resolveListLoop strResolver l [] st) as [st' [out|e]]; [|done].
  destruct Hrun as (outs & Hr & ->). simpl. split; [done|].
  by eapply resolvedItems_length.
Qed.

Lemma resolveList_in_order_first_failure_named_witness :
  (resolveList (X := Fake.externals) (Fake.constant "c") [IStr "a"; IInt 7; IStr "b"]
     Fake.emptyState).2 = Ok [IStr "c"; IInt 7; IStr "c"] /\
  exists pre post,
    [IStr "ok"; IStr "bad"; IStr "later"] = pre ++ IStr "bad" :: post /\
    (resolveList (X := Fake.externals) (Fake.rejecting "bad")
       [IStr "ok"; IStr "bad"; IStr "later"] Fake.emptyState).2
    = Err (ErrListItem (IStr "bad") (ErrExternal "rejected")).
Proof.
  split.
  - pose proof (resolveList_in_order_first_failure_named (X := Fake.externals)
                  (Fake.constant "c") [IStr "a"; IInt 7; IStr "b"] Fake.emptyState) as H.
    destruct (resolveList (X := Fake.externals) (Fake.constant "c")
                [IStr "a"; IInt 7; IStr "b"] Fake.emptyState) as [st' [out|e]] eqn:Hrun;
      [|discriminate Hrun].
    injection Hrun as _ <-. reflexivity.
  - pose proof (resolveList_in_order_first_failure_named (X := Fake.externals)
                  (Fake.rejecting "bad") [IStr "ok"; IStr "bad"; IStr "later"]
                  Fake.emptyState) as H.
    destruct (resolveList (X := Fake.externals) (Fake.rejecting "bad")
                [IStr "ok"; IStr "bad"; IStr "later"] Fake.emptyState)
      as [st' [out|e]] eqn:Hrun; [discriminate Hrun|].
    exists [IStr "ok"], [IStr "later"]. split; [reflexivity|].
    injection Hrun as _ <-. reflexivity.
Defined.

(** ** The document decoder *)

(** Refutes C2 as stated: the plain scalar 99999999999999999999 is spelt
    with digits only, yet it does not fit [int], so the integer attempt
    fails like the sequence, mapping and boolean ones, the string attempt
    is the first to parse, and the document decodes to the string
    variant, without error. *)
Lemma UnmarshalYAML_out_of_range_digits_decode_as_string :
  allDigits "99999999999999999999" = true /\
  UnmarshalYAML zeroDoc (Fake.digits "99999999999999999999") =
    (mkYamlDoc None None false 0 false false true "99999999999999999999",
     [ShList; ShMap; ShInt; ShBool; ShStr], None) /\
  val (UnmarshalYAML zeroDoc (Fake.digits "99999999999999999999")).1.1 =
    IStr "99999999999999999999" /\
  forall n, val (UnmarshalYAML zeroDoc (Fake.digits "99999999999999999999")).1.1 <> IInt n.
Proof.
  split; [reflexivity|]. split; [reflexivity|]. split; [reflexivity|].
  intros n H. vm_compute in H. discriminate H.
Qed.

(** One exit of [UnmarshalYAML]: [rest] are the shapes it did not try. *)
Ltac decoder_case rest :=
  split; [by exists rest|];
  split; [intros sh Hsh; destruct sh; simpl; try reflexivity; exfalso; set_solver|];
  split; [intros sh Hsh; destruct sh; simpl; try reflexivity; exfalso; apply Hsh; set_solver|];
  simpl; rewrite ?orb_false_r, ?orb_true_r; repeat split; reflexivity.

(** C2, amended. [UnmarshalYAML] tries sequence, mapping, integer,
    boolean and string in that order and stops at the first attempt that
    returns no error: the shapes tried are the start of that order up to
    the first one that parses, which is the one accepted; when none
    parses all five were tried and the error is returned.  The document
    it leaves is fixed by the attempts: the target of every shape tried
    holds what its attempt left there, the other targets are untouched,
    and the only flag raised is that of the accepted shape when it is
    integer, boolean or string.  So a scalar (neither a sequence nor a
    mapping) whose integer attempt parses is stored as an integer and
    never as a string, whatever the string attempt would return; and a
    scalar whose integer and boolean attempts fail and whose string
    attempt parses, as for digits out of the range of [int], is stored as
    a string and not as an integer. *)
Theorem UnmarshalYAML_first_parsing_shape_is_stored :
  (forall (y : yamlDoc) (unmarshal : unmarshalFn),
     match UnmarshalYAML y unmarshal with
     | (y', tried, err) =>
         (exists rest, shapeOrder = tried ++ rest) /\
         (forall sh, sh ∈ tried -> held y' sh = attemptHeld unmarshal y sh) /\
         (forall sh, sh ∉ tried -> held y' sh = held y sh) /\
         match List.find (attemptOk unmarshal y) shapeOrder with
         | Some sh =>
             err = None /\ last tried = Some sh /\
             isInt y' = isInt y || shape_eqb sh ShInt /\
             isBool y' = isBool y || shape_eqb sh ShBool /\
             isStr y' = isStr y || shape_eqb sh ShStr
         | None =>
             err = Some ErrNoShape /\ tried = shapeOrder /\
             isInt y' = isInt y /\ isBool y' = isBool y /\ isStr y' = isStr y
         end
     end) /\
  (forall (unmarshal : unmarshalFn) (e1 e2 : error),
     intoList unmarshal None = (None, Some e1) ->
     intoMap unmarshal None = (None, Some e2) ->
     (forall n, intoInt unmarshal 0%Z = (n, None) ->
        UnmarshalYAML zeroDoc unmarshal =
          (mkYamlDoc None None true n false false false "", [ShList; ShMap; ShInt], None) /\
        val (UnmarshalYAML zeroDoc unmarshal).1.1 = IInt n /\
        forall s, val (UnmarshalYAML zeroDoc unmarshal).1.1 <> IStr s) /\
     (forall n b s e3 e4,
        intoInt unmarshal 0%Z = (n, Some e3) ->
        intoBool unmarshal false = (b, Some e4) ->
        intoStr unmarshal "" = (s, None) ->
        UnmarshalYAML zeroDoc unmarshal =
          (mkYamlDoc None None false n false b true s, shapeOrder, None) /\
        val (UnmarshalYAML zeroDoc unmarshal).1.1 = IStr s /\
        forall m, val (UnmarshalYAML zeroDoc unmarshal).1.1 <> IInt m)).
Proof.
  split.
  - intros y unmarshal.
    unfold UnmarshalYAML, shapeOrder, attemptOk, attemptErr, attemptHeld, held.
    cbn [List.find].
    destruct (intoList unmarshal (vList y)) as [l [e|]];
      cbn [fst snd vList vMap vInt vBool vStr isInt isBool isStr
           setVList setVMap setVInt setVBool setVStr setIsInt setIsBool setIsStr];
      [|decoder_case [ShMap; ShInt; ShBool; ShStr]].
    destruct (intoMap unmarshal (vMap y)) as [m [e'|]];
      cbn [fst snd vList vMap vInt vBool vStr isInt isBool isStr
           setVList setVMap setVInt setVBool setVStr setIsInt setIsBool setIsStr];
      [|decoder_case [ShInt; ShBool; ShStr]].
    destruct (intoInt unmarshal (vInt y)) as [n [e''|]];
      cbn [fst snd vList vMap vInt vBool vStr isInt isBool isStr
           setVList setVMap setVInt setVBool setVStr setIsInt setIsBool setIsStr];
      [|decoder_case [ShBool; ShStr]].
    destruct (intoBool unmarshal (vBool y)) as [b [e3|]];
      cbn [fst snd vList vMap vInt vBool vStr isInt isBool isStr
           setVList setVMap setVInt setVBool setVStr setIsInt setIsBool setIsStr];
      [|decoder_case [ShStr]].
    destruct (intoStr unmarshal (vStr y)) as [s [e4|]];
      cbn [fst snd vList vMap vInt vBool vStr isInt isBool isStr
           setVList setVMap setVInt setVBool setVStr setIsInt setIsBool setIsStr];
      decoder_case (@nil shape).
  - intros unmarshal e1 e2 Hl Hm. split.
    + intros n Hi.
      assert (UnmarshalYAML zeroDoc unmarshal =
              (mkYamlDoc None None true n false false false "", [ShList; ShMap; ShInt], None))
        as H.
      { unfold UnmarshalYAML. simpl. rewrite Hl. simpl. rewrite Hm. simpl.
        rewrite Hi. reflexivity. }
      rewrite H. split; [done|]. split; [done|]. done.
    + intros n b s e3 e4 Hi Hb Hs.
      assert (UnmarshalYAML zeroDoc unmarshal =
              (mkYamlDoc None None false n false b true s, shapeOrder, None)) as H.
      { unfold UnmarshalYAML. simpl. rewrite Hl. simpl. rewrite Hm. simpl.
        rewrite Hi. simpl. rewrite Hb. simpl. rewrite Hs. reflexivity. }
      rewrite H. split; [done|]. split; [done|]. done.
Qed.

Lemma UnmarshalYAML_first_parsing_shape_is_stored_witness :
  (allDigits "9223372036854775807" = true /\
   val (UnmarshalYAML zeroDoc (Fake.digits "9223372036854775807")).1.1 =
     IInt 9223372036854775807) /\
  (allDigits "9223372036854775808" = true /\
   val (UnmarshalYAML zeroDoc (Fake.digits "9223372036854775808")).1.1 =
     IStr "9223372036854775808").
Proof.
  split; (split; [reflexivity|]).
  - destruct (proj2 UnmarshalYAML_first_parsing_shape_is_stored
                (Fake.digits "9223372036854775807")
                (ErrExternal "cannot unmarshal scalar into []interface {}")
                (ErrExternal "cannot unmarshal scalar into map")
                eq_refl eq_refl) as [Hint _].
    exact (proj1 (proj2 (Hint 9223372036854775807%Z eq_refl))).
  - destruct (proj2 UnmarshalYAML_first_parsing_shape_is_stored
                (Fake.digits "9223372036854775808")
                (ErrExternal "cannot unmarshal scalar into []interface {}")
                (ErrExternal "cannot unmarshal scalar into map")
                eq_refl eq_refl) as [_ Hstr].
    exact (proj1 (proj2 (Hstr 0%Z false "9223372036854775808"
                           (ErrExternal "cannot unmarshal scalar into int")
                           (ErrExternal "cannot unmarshal scalar into bool")
                           eq_refl eq_refl eq_refl))).
Defined.

(** * Further properties *)

(** ** More on splitting *)

Lemma Split_String c s sep :
  Split (String c s) sep =
  if Ascii.eqb c sep then "" :: Split s sep
  else match Split s sep with
       | h :: t => String c h :: t
       | [] => [String c ""]
       end.
Proof.
  unfold Split. simpl. destruct (Ascii.eqb c sep) eqn:E; simpl; rewrite ?E; [done|].
  destruct (Count sep s) eqn:Hc; [|done].
  by rewrite genSplit_zero.
Qed.

Lemma Split_empty sep : Split "" sep = [""].
Proof. reflexivity. Qed.

Lemma Split_not_nil s sep : Split s sep <> [].
Proof. apply genSplit_not_nil. Qed.

Lemma Split_app s1 s2 sep :
  Split (s1 +:+ String sep s2) sep = Split s1 sep ++ Split s2 sep.
Proof.
  induction s1 as [|c s1 IH].
  - change ("" +:+ String sep s2) with (String sep s2).
    by rewrite Split_String, Ascii.eqb_refl.
  - change (String c s1 +:+ String sep s2) with (String c (s1 +:+ String sep s2)).
    rewrite !Split_String, IH. destruct (Ascii.eqb c sep); [done|].
    pose proof (Split_not_nil s1 sep). by destruct (Split s1 sep).
Qed.

Lemma Split_no_sep s sep : Count sep s = 0 -> Split s sep = [s].
Proof. apply genSplit_no_sep. Qed.

Lemma Split_length s sep : List.length (Split s sep) = S (Count sep s).
Proof.
  induction s as [|c s IH]; [done|].
  rewrite Split_String. simpl. destruct (Ascii.eqb c sep); simpl; [by rewrite IH|].
  pose proof (Split_not_nil s sep). destruct (Split s sep); [done|]. simpl in *. lia.
Qed.

Lemma Split_fields_no_sep s sep : Forall (fun f => Count sep f = 0) (Split s sep).
Proof.
  induction s as [|c s IH]; [by repeat constructor|].
  rewrite Split_String. destruct (Ascii.eqb c sep) eqn:E; [by constructor|].
  destruct (Split s sep) as [|h t]; [repeat constructor; simpl; by rewrite E|].
  apply Forall_cons in IH as [Hh Ht]. constructor; [|done]. simpl. by rewrite E.
Qed.

Lemma Join_cons x y l sep : Join (x :: y :: l) sep = x +:+ String sep (Join (y :: l) sep).
Proof. reflexivity. Qed.

Lemma Join_Split s sep : Join (Split s sep) sep = s.
Proof.
  induction s as [|c s IH]; [done|].
  rewrite Split_String. destruct (Ascii.eqb c sep) eqn:E.
  - apply Ascii.eqb_eq in E as ->.
    pose proof (Split_not_nil s sep). destruct (Split s sep) as [|h t] eqn:Hs; [done|].
    rewrite Join_cons, IH. done.
  - pose proof (Split_not_nil s sep). destruct (Split s sep) as [|h t] eqn:Hs; [done|].
    destruct t as [|h' t].
    + simpl in *. congruence.
    + rewrite Join_cons in *.
      change (String c h +:+ ?x) with (String c (h +:+ x)). by rewrite IH.
Qed.

Lemma Split_Join l sep :
  l <> [] -> Forall (fun f => Count sep f = 0) l -> Split (Join l sep) sep = l.
Proof.
  induction l as [|x l IH]; intros Hne Hall; [done|].
  apply Forall_cons in Hall as [Hx Hall].
  destruct l as [|y l]; [by apply Split_no_sep|].
  rewrite Join_cons, Split_app, Split_no_sep by done.
  simpl. f_equal. by apply IH.
Qed.

Lemma cut_unique sep k v k' v' :
  Count sep k = 0 -> Count sep k' = 0 ->
  k +:+ String sep v = k' +:+ String sep v' -> k = k' /\ v = v'.
Proof.
  intros Hk Hk' H.
  pose proof (SplitN2_cut sep k v Hk) as H1.
  rewrite H, (SplitN2_cut sep k' v' Hk') in H1. by injection H1.
Qed.

(** ** More on image specs *)

Lemma knownKeys_no_equals k : k ∈ knownKeys -> Count "=" k = 0.
Proof.
  unfold knownKeys. intros H.
  repeat (apply elem_of_cons in H as [->|H]; [reflexivity|]).
  by apply elem_of_nil in H.
Qed.

Lemma setField_known acc k v : k ∈ knownKeys -> is_ok (setField acc k v) = true.
Proof.
  unfold knownKeys. intros H.
  repeat (apply elem_of_cons in H as [->|H]; [reflexivity|]).
  by apply elem_of_nil in H.
Qed.

Lemma setField_unknown acc k v :
  k ∉ knownKeys -> setField acc k v = Err (ErrUnknownField k).
Proof.
  unfold knownKeys, setField. intros H.
  repeat match goal with
  | |- context [String.eqb k ?c] =>
      destruct (String.eqb_spec k c) as [->|_]; [exfalso; apply H; set_solver|]
  end.
  done.
Qed.

Lemma knownKeys_dec k : {k ∈ knownKeys} + {k ∉ knownKeys}.
Proof. destruct (decide (k ∈ knownKeys)); [by left|by right]. Qed.

Lemma setField_error acc k v e :
  setField acc k v = Err e -> e = ErrUnknownField k /\ k ∉ knownKeys.
Proof.
  intros H. destruct (knownKeys_dec k) as [Hk|Hk].
  - pose proof (setField_known acc k v Hk) as Hok. by rewrite H in Hok.
  - rewrite setField_unknown in H by done. by injection H as <-.
Qed.

Lemma wellFormedItem_cut k v :
  Count "=" k = 0 -> wellFormedItem (k +:+ String "=" v) <-> k ∈ knownKeys.
Proof.
  intros Hk. split.
  - intros (k' & v' & Heq & Hk').
    apply cut_unique in Heq as [-> _]; [done|done|by apply knownKeys_no_equals].
  - intros H. by exists k, v.
Qed.

Lemma parseItems_ok_iff items : forall acc,
  is_ok (parseItems items acc) = true <-> Forall wellFormedItem items.
Proof.
  induction items as [|it items IH]; intros acc; [by split|].
  rewrite Forall_cons.
  destruct (hasByte_dec "=" it) as [Hit|Hit].
  - apply hasByte_Count, Count_first_sep in Hit as (k & v & -> & Hk).
    rewrite parseItems_cut, wellFormedItem_cut by done.
    destruct (setField acc k v) as [acc'|e] eqn:Hset.
    + rewrite IH. split; [|by intros [_ ?]]. intros H. split; [|done].
      destruct (knownKeys_dec k) as [|Hn]; [done|].
      by rewrite setField_unknown in Hset.
    + apply setField_error in Hset as [_ Hn]. simpl. split; [done|by intros [? _]].
  - rewrite parseItems_whole by done. simpl. split; [done|].
    intros [(k & v & -> & _) _]. exfalso. apply Hit. by exists k, v.
Qed.

Lemma parseItems_unknown_error items : forall acc k,
  parseItems items acc = Err (ErrUnknownField k) <->
  (k ∉ knownKeys) /\ ~ hasByte "=" k /\
  exists pre v post acc',
    items = pre ++ (k +:+ String "=" v) :: post /\ parseItems pre acc = Ok acc'.
Proof.
  induction items as [|it items IH]; intros acc k.
  - simpl. split; [done|]. intros (_ & _ & pre & v & post & acc' & H & _). by destruct pre.
  - destruct (hasByte_dec "=" it) as [Hit|Hit].
    + apply hasByte_Count, Count_first_sep in Hit as (k0 & v0 & -> & Hk0).
      rewrite parseItems_cut by done.
      destruct (setField acc k0 v0) as [acc1|e] eqn:Hset.
      * rewrite IH. split.
        -- intros (Hn & Hk & pre & v & post & acc' & -> & Hpre).
           repeat (split; [done|]).
           exists ((k0 +:+ String "="%char v0) :: pre), v, post, acc'. split; [done|].
           rewrite parseItems_cut by done. by rewrite Hset.
        -- intros (Hn & Hk & pre & v & post & acc' & Hitems & Hpre).
           repeat (split; [done|]).
           destruct pre as [|p pre]; simpl in Hitems.
           ++ injection Hitems as Heq _.
              apply cut_unique in Heq as [-> ->]; [|done|].
              ** by rewrite setField_unknown in Hset.
              ** destruct (Count "=" k) eqn:E; [done|]. exfalso. apply Hk, hasByte_Count. lia.
           ++ injection Hitems as <- ->.
              rewrite parseItems_cut in Hpre by done. rewrite Hset in Hpre.
              by exists pre, v, post, acc'.
      * apply setField_error in Hset as Herr. destruct Herr as [-> Hn0]. split.
        -- intros [= <-]. split; [done|]. split; [by intros ?%hasByte_Count|].
           by exists [], v0, items, acc.
        -- intros (Hn & Hk & pre & v & post & acc' & Hitems & Hpre).
           destruct pre as [|p pre]; simpl in Hitems.
           ++ injection Hitems as Heq _.
              apply cut_unique in Heq as [-> ->]; [done|done|].
              destruct (Count "=" k) eqn:E; [done|]. exfalso. apply Hk, hasByte_Count. lia.
           ++ injection Hitems as <- ->.
              rewrite parseItems_cut in Hpre by done. by rewrite Hset in Hpre.
    + rewrite parseItems_whole by done. split; [done|].
      intros (Hn & Hk & pre & v & post & acc' & Hitems & Hpre).
      destruct pre as [|p pre]; simpl in Hitems.
      * injection Hitems as -> _. exfalso. apply Hit. by exists k, v.
      * injection Hitems as <- ->. by rewrite parseItems_whole in Hpre.
Qed.

(** X1. [parseImageSpec] succeeds exactly on the spec strings whose
    ';'-separated items all have the form [key=value] with one of the
    seven keys of the switch. *)
Theorem parseImageSpec_succeeds_iff_items_well_formed (spec : string) :
  is_ok (parseImageSpec spec) = true <-> Forall wellFormedItem (Split spec ";").
Proof. apply parseItems_ok_iff. Qed.

Lemma parseImageSpec_succeeds_iff_items_well_formed_witness :
  is_ok (parseImageSpec "name=gcr.io/foo/bar:v1;config=a=b") = true.
Proof.
  apply (proj2 (parseImageSpec_succeeds_iff_items_well_formed
                  "name=gcr.io/foo/bar:v1;config=a=b")).
  repeat constructor.
  - exists "name", "gcr.io/foo/bar:v1". split; [reflexivity|]. unfold knownKeys. set_solver.
  - exists "config", "a=b". split; [reflexivity|]. unfold knownKeys. set_solver.
Defined.

(** X2. [parseImageSpec] returns the unknown-field error for [k] exactly
    when [k] is the text before the first '=' of an item, [k] is none of
    the seven keys, and the items before that one have parsed. *)
Theorem parseImageSpec_unknown_field_iff (spec k : string) :
  parseImageSpec spec = Err (ErrUnknownField k) <->
  (k ∉ knownKeys) /\ ~ hasByte "=" k /\
  exists pre v post acc,
    Split spec ";" = pre ++ (k +:+ "=" +:+ v) :: post /\
    parseItems pre emptySpec = Ok acc.
Proof. apply parseItems_unknown_error. Qed.

Lemma parseImageSpec_unknown_field_iff_witness :
  parseImageSpec "name=a;colour=red;config" = Err (ErrUnknownField "colour").
Proof.
  apply (proj2 (parseImageSpec_unknown_field_iff "name=a;colour=red;config" "colour")).
  split; [unfold knownKeys; set_solver|]. split.
  - intros H. apply hasByte_Count in H. apply H. reflexivity.
  - exists ["name=a"], "red", ["config"], (mkImageSpec "a" "" "" [] [] [] []).
    split; reflexivity.
Defined.

Lemma setField_overwrite acc k v1 v2 acc1 :
  setField acc k v1 = Ok acc1 -> setField acc1 k v2 = setField acc k v2.
Proof.
  intros H. destruct (knownKeys_dec k) as [Hk|Hk].
  - unfold knownKeys in Hk.
    repeat (apply elem_of_cons in Hk as [->|Hk]; [by injection H as <-|]).
    by apply elem_of_nil in Hk.
  - by rewrite setField_unknown in H.
Qed.

Lemma setField_commute acc k1 v1 k2 v2 a1 a2 :
  k1 <> k2 ->
  setField acc k1 v1 = Ok a1 -> setField acc k2 v2 = Ok a2 ->
  setField a1 k2 v2 = setField a2 k1 v1.
Proof.
  intros Hne H1 H2.
  destruct (knownKeys_dec k1) as [Hk1|Hk1]; [|by rewrite setField_unknown in H1].
  destruct (knownKeys_dec k2) as [Hk2|Hk2]; [|by rewrite setField_unknown in H2].
  unfold knownKeys in Hk1, Hk2.
  repeat (apply elem_of_cons in Hk1 as [->|Hk1];
    [repeat (apply elem_of_cons in Hk2 as [->|Hk2];
       [try done; by injection H1 as <-; injection H2 as <-|]);
     by apply elem_of_nil in Hk2|]).
  by apply elem_of_nil in Hk1.
Qed.

(** X3. A key given twice in a row keeps the value given last, and two
    neighbouring items with different recognised keys can be swapped
    without changing what the parser returns. *)
Theorem parseItems_last_value_wins_order_free :
  (forall k v1 v2 rest acc,
     ~ hasByte "=" k ->
     parseItems ((k +:+ "=" +:+ v1) :: (k +:+ "=" +:+ v2) :: rest) acc =
     parseItems ((k +:+ "=" +:+ v2) :: rest) acc) /\
  (forall k1 v1 k2 v2 rest acc,
     k1 ∈ knownKeys -> k2 ∈ knownKeys -> k1 <> k2 ->
     parseItems ((k1 +:+ "=" +:+ v1) :: (k2 +:+ "=" +:+ v2) :: rest) acc =
     parseItems ((k2 +:+ "=" +:+ v2) :: (k1 +:+ "=" +:+ v1) :: rest) acc).
Proof.
  split.
  - intros k v1 v2 rest acc Hk.
    assert (Count "=" k = 0) as Hc.
    { destruct (Count "=" k) eqn:E; [done|]. exfalso. apply Hk, hasByte_Count. lia. }
    change (k +:+ "=" +:+ v1) with (k +:+ String "="%char v1).
    change (k +:+ "=" +:+ v2) with (k +:+ String "="%char v2).
    rewrite (parseItems_cut k v1) by done.
    destruct (setField acc k v1) as [acc1|e] eqn:H1.
    + rewrite !(parseItems_cut k v2) by done.
      by rewrite (setField_overwrite _ _ _ _ _ H1).
    + apply setField_error in H1 as [-> Hn].
      rewrite (parseItems_cut k v2) by done. by rewrite setField_unknown.
  - intros k1 v1 k2 v2 rest acc Hk1 Hk2 Hne.
    pose proof (knownKeys_no_equals _ Hk1) as Hc1.
    pose proof (knownKeys_no_equals _ Hk2) as Hc2.
    change (k1 +:+ "=" +:+ v1) with (k1 +:+ String "="%char v1).
    change (k2 +:+ "=" +:+ v2) with (k2 +:+ String "="%char v2).
    rewrite (parseItems_cut k1 v1), (parseItems_cut k2 v2) by done.
    pose proof (setField_known acc k1 v1 Hk1) as Ho1.
    pose proof (setField_known acc k2 v2 Hk2) as Ho2.
    destruct (setField acc k1 v1) as [a1|] eqn:H1; [|done].
    destruct (setField acc k2 v2) as [a2|] eqn:H2; [|done].
    rewrite (parseItems_cut k2 v2), (parseItems_cut k1 v1) by done.
    by rewrite (setField_commute _ _ _ _ _ _ _ Hne H1 H2).
Qed.

Lemma parseItems_last_value_wins_order_free_witness :
  parseImageSpec "name=a;name=b;config=c" = parseImageSpec "name=b;config=c" /\
  parseImageSpec "config=c;name=b" = parseImageSpec "name=b;config=c".
Proof.
  split.
  - apply (proj1 parseItems_last_value_wins_order_free "name" "a" "b" ["config=c"] emptySpec).
    intros H. apply hasByte_Count in H. apply H. reflexivity.
  - apply (proj2 parseItems_last_value_wins_order_free "config" "c" "name" "b" [] emptySpec).
    + unfold knownKeys. set_solver.
    + unfold knownKeys. set_solver.
    + discriminate.
Defined.

(** X4. A spec string with an empty item never parses: the empty
    string, a string ending in ';', one starting with ';' and one with
    two ';' in a row are all rejected. *)
Theorem parseImageSpec_rejects_empty_items :
  parseImageSpec "" = Err (ErrSplitFields "" 1) /\
  (forall s, is_ok (parseImageSpec (s +:+ ";")) = false) /\
  (forall s, parseImageSpec (";" +:+ s) = Err (ErrSplitFields "" 1)) /\
  (forall a b, is_ok (parseImageSpec (a +:+ ";;" +:+ b)) = false).
Proof.
  assert (~ wellFormedItem "") as Hempty.
  { intros (k & v & H & _). by destruct k. }
  assert (forall spec, "" ∈ Split spec ";" -> is_ok (parseImageSpec spec) = false) as Hfail.
  { intros spec Hin. destruct (is_ok (parseImageSpec spec)) eqn:E; [|done].
    apply parseItems_ok_iff in E. rewrite Forall_forall in E. by apply E in Hin. }
  split; [done|]. split; [|split].
  - intros s. apply Hfail.
    change (s +:+ ";") with (s +:+ String ";"%char "").
    rewrite Split_app. apply elem_of_app. right. apply list_elem_of_here.
  - intros s. unfold parseImageSpec.
    change (";" +:+ s) with (String ";"%char s).
    rewrite Split_String. simpl. done.
  - intros a b. apply Hfail.
    change (a +:+ ";;" +:+ b) with (a +:+ String ";"%char (String ";"%char b)).
    rewrite Split_app, Split_String, Ascii.eqb_refl.
    apply elem_of_app. right. apply list_elem_of_here.
Qed.

Lemma no_byte_Count sep s : ~ hasByte sep s <-> Count sep s = 0.
Proof.
  rewrite hasByte_Count. destruct (Count sep s); split; try done; lia.
Qed.

Lemma Split_item a b sep :
  Count sep a = 0 -> Split (a +:+ String sep b) sep = a :: Split b sep.
Proof. intros H. by rewrite Split_app, Split_no_sep. Qed.

Lemma Count_Join_other c sep l :
  c <> sep -> Forall (fun f => Count c f = 0) l -> Count c (Join l sep) = 0.
Proof.
  intros Hne. induction 1 as [|x l Hx Hl IH]; [done|].
  destruct l as [|y l]; [done|].
  rewrite Join_cons, Count_app, Hx.
  change (Count c (String sep (Join (y :: l) sep)))
    with ((if Ascii.eqb sep c then 1 else 0) + Count c (Join (y :: l) sep)).
  rewrite IH. by destruct (Ascii.eqb_spec sep c) as [->|_].
Qed.

(** X5. A list-valued key splits its value on commas: the field holds
    one element more than the value has commas (so one empty element for
    an empty value, never an empty list), no element has a comma, and
    joining the elements with commas gives the value back.  The other way
    round, the comma-join of a non-empty list of comma-free strings
    parses back to that list. *)
Theorem list_field_splits_on_commas (acc : imageSpec) (key : string) :
  key ∈ listKeys ->
  (forall value, exists acc',
     setField acc key value = Ok acc' /\
     Join (listField key acc') "," = value /\
     List.length (listField key acc') = S (Count "," value) /\
     Forall (fun f => ~ hasByte "," f) (listField key acc')) /\
  (forall l,
     l <> [] -> Forall (fun f => ~ hasByte "," f) l ->
     exists acc', setField acc key (Join l ",") = Ok acc' /\ listField key acc' = l).
Proof.
  intros Hk.
  assert (forall value, exists acc',
            setField acc key value = Ok acc' /\ listField key acc' = Split value ",") as Hset.
  { intros value. unfold listKeys in Hk.
    repeat (apply elem_of_cons in Hk as [->|Hk]; [by eexists|]).
    by apply elem_of_nil in Hk. }
  split.
  - intros value. destruct (Hset value) as (acc' & H1 & H2).
    exists acc'. split; [done|]. rewrite H2.
    split; [apply Join_Split|]. split; [apply Split_length|].
    eapply Forall_impl; [apply Split_fields_no_sep|].
    intros f Hf. by apply no_byte_Count.
  - intros l Hne Hall. destruct (Hset (Join l ",")) as (acc' & H1 & H2).
    exists acc'. split; [done|]. rewrite H2. apply Split_Join; [done|].
    eapply Forall_impl; [exact Hall|]. intros f Hf. by apply no_byte_Count.
Qed.

Lemma list_field_splits_on_commas_witness :
  exists acc',
    setField emptySpec "digest" "" = Ok acc' /\ listField "digest" acc' = [""].
Proof.
  destruct (list_field_splits_on_commas emptySpec "digest") as [_ H].
  - unfold listKeys. set_solver.
  - apply (H [""]); [discriminate|].
    repeat constructor. intros Hb. apply hasByte_Count in Hb. apply Hb. reflexivity.
Defined.

Lemma layers_equal_lengths s :
  List.length (digests s) = List.length (diffIDs s) ->
  List.length (diffIDs s) = List.length (compressedLayers s) ->
  List.length (compressedLayers s) = List.length (uncomressedLayers s) ->
  exists tokens,
    layers s = Ok tokens /\
    List.length tokens = List.length (digests s) /\
    forall i c u d f,
      compressedLayers s !! i = Some c -> uncomressedLayers s !! i = Some u ->
      digests s !! i = Some d -> diffIDs s !! i = Some f ->
      tokens !! i = Some (layerToken c u d f).
Proof.
  intros E1 E2 E3. unfold layers.
  rewrite <- E3, <- E2, <- E1, !Nat.eqb_refl. simpl.
  eexists. split; [done|]. rewrite layersLoop_imap. simpl.
  split; [by rewrite length_imap|].
  intros i c u d f Hc Hu Hd Hf.
  rewrite list_lookup_imap, Hd. simpl.
  by rewrite (idx_lookup _ _ _ Hc), (idx_lookup _ _ _ Hu), (idx_lookup _ _ _ Hf).
Qed.

(** X6. Parsing composes with [layers]: the spec string written for a
    name and four lists of layer files of one non-zero length, none of
    them holding a ';' or a ',', parses to the spec with exactly that name
    and those lists, and [layers] of it returns one token
    "compressedLayer,uncompressedLayer,digest,diffID" per layer. *)
Theorem parse_then_layers (n : string) (ds fs cs us : list string) :
  ~ hasByte ";" n ->
  ds <> [] ->
  List.length ds = List.length fs ->
  List.length fs = List.length cs ->
  List.length cs = List.length us ->
  Forall (fun f => ~ hasByte ";" f /\ ~ hasByte "," f) (ds ++ fs ++ cs ++ us) ->
  parseImageSpec (specString n ds fs cs us) = Ok (mkImageSpec n "" "" ds fs cs us) /\
  exists tokens,
    layers (mkImageSpec n "" "" ds fs cs us) = Ok tokens /\
    List.length tokens = List.length ds /\
    forall i c u d f,
      cs !! i = Some c -> us !! i = Some u -> ds !! i = Some d -> fs !! i = Some f ->
      tokens !! i = Some (c +:+ "," +:+ u +:+ "," +:+ d +:+ "," +:+ f).
Proof.
  intros Hn Hne E1 E2 E3 Hall.
  rewrite !Forall_app in Hall. destruct Hall as (Hds & Hfs & Hcs & Hus).
  assert (forall l, Forall (fun f => ~ hasByte ";" f /\ ~ hasByte "," f) l ->
            Count ";" (Join l ",") = 0 /\ Forall (fun f => Count "," f = 0) l) as Hjoin.
  { intros l Hl. split.
    - apply Count_Join_other; [discriminate|].
      eapply Forall_impl; [exact Hl|]. intros f [Hf _]. by apply no_byte_Count.
    - eapply Forall_impl; [exact Hl|]. intros f [_ Hf]. by apply no_byte_Count. }
  destruct (Hjoin _ Hds) as [Jd Cd]. destruct (Hjoin _ Hfs) as [Jf Cf].
  destruct (Hjoin _ Hcs) as [Jc Cc]. destruct (Hjoin _ Hus) as [Ju Cu].
  apply no_byte_Count in Hn.
  assert (fs <> []) as Hnf by (destruct fs, ds; simpl in *; congruence).
  assert (cs <> []) as Hnc by (destruct cs, fs; simpl in *; congruence).
  assert (us <> []) as Hnu by (destruct us, cs; simpl in *; congruence).
  split.
  - unfold parseImageSpec, specString.
    change ("name=" +:+ n +:+ ";digest=" +:+ Join ds "," +:+ ";diff_id=" +:+ Join fs ","
              +:+ ";compressed_layer=" +:+ Join cs "," +:+ ";uncompressed_layer=" +:+ Join us ",")
      with (("name=" +:+ n) +:+ String ";"%char
            (("digest=" +:+ Join ds ",") +:+ String ";"%char
             (("diff_id=" +:+ Join fs ",") +:+ String ";"%char
              (("compressed_layer=" +:+ Join cs ",") +:+ String ";"%char
               ("uncompressed_layer=" +:+ Join us ","))))).
    rewrite !Split_item, Split_no_sep
      by (rewrite Count_app; simpl; first [rewrite Hn|rewrite Jd|rewrite Jf|rewrite Jc|rewrite Ju]; done).
    change ("name=" +:+ n) with ("name" +:+ String "="%char n).
    change ("digest=" +:+ Join ds ",") with ("digest" +:+ String "="%char (Join ds ",")).
    change ("diff_id=" +:+ Join fs ",") with ("diff_id" +:+ String "="%char (Join fs ",")).
    change ("compressed_layer=" +:+ Join cs ",")
      with ("compressed_layer" +:+ String "="%char (Join cs ",")).
    change ("uncompressed_layer=" +:+ Join us ",")
      with ("uncompressed_layer" +:+ String "="%char (Join us ",")).
    do 5 (rewrite parseItems_cut by reflexivity;
          cbn [setField String.eqb Ascii.eqb Bool.eqb emptySpec name imgTarball imgConfig
               digests diffIDs compressedLayers uncomressedLayers]).
    cbn [parseItems]. by rewrite !Split_Join.
  - destruct (layers_equal_lengths (mkImageSpec n "" "" ds fs cs us) E1 E2 E3)
      as (tokens & H1 & H2 & H3).
    exists tokens. split; [done|]. split; [done|]. exact H3.
Qed.

Lemma parse_then_layers_witness :
  parseImageSpec
    "name=gcr.io/foo/bar:v1;digest=d0,d1;diff_id=f0,f1;compressed_layer=c0,c1;uncompressed_layer=u0,u1"
  = Ok (mkImageSpec "gcr.io/foo/bar:v1" "" "" ["d0"; "d1"] ["f0"; "f1"] ["c0"; "c1"] ["u0"; "u1"]).
Proof.
  apply (parse_then_layers "gcr.io/foo/bar:v1" ["d0"; "d1"] ["f0"; "f1"] ["c0"; "c1"] ["u0"; "u1"]);
    try reflexivity; try discriminate.
  - intros H. apply hasByte_Count in H. apply H. reflexivity.
  - repeat constructor; intros H; apply hasByte_Count in H; apply H; reflexivity.
Defined.

(** ** More on the publisher *)

Lemma pushes_app cs1 cs2 : pushes (cs1 ++ cs2) = pushes cs1 + pushes cs2.
Proof. unfold pushes. by rewrite List.filter_app, List.length_app. Qed.

Lemma fetches_app cs1 cs2 : fetches (cs1 ++ cs2) = fetches cs1 + fetches cs2.
Proof. unfold fetches. by rewrite List.filter_app, List.length_app. Qed.

Section PublishSingle.
Context `{X : Externals}.

(** The ways out of [publishSingle], spelled out. *)
Lemma publishSingle_cases spec stamper w :
  publishSingle spec stamper w =
  match layers spec with
  | Err err => (w, Err (ErrLayerParts (name spec) err))
  | Ok ls =>
      let cs1 := calls w ++ [CallImagePartsFromArgs (imgConfig spec) (imgTarball spec) ls] in
      match ImagePartsFromArgs (imgConfig spec) "" (imgTarball spec) ls with
      | Err e => (mkWorld (env w) cs1, Err (ErrImageParts e))
      | Ok parts =>
          let cs2 := cs1 ++ [CallReadImage] in
          match ReadImage parts (env w) with
          | (e1, Err e) => (mkWorld e1 cs2, Err (ErrReadImage e))
          | (e1, Ok img) =>
              let n := publishedTagName spec stamper in
              let cs3 := cs2 ++ [CallNewTag n WeakValidation] in
              match NewTag n WeakValidation with
              | Err e => (mkWorld e1 cs3, Err (ErrStampedTag n e))
              | Ok t =>
                  let cs4 := cs3 ++ [CallKeychainResolve (Context t)] in
                  match KeychainResolve (Context t) e1 with
                  | (e2, Err _) => (mkWorld e2 cs4, Err (ErrAuthenticator (Name t)))
                  | (e2, Ok auth) =>
                      if NoPush flags then digestStep t img e2 cs4
                      else
                        let cs5 := cs4 ++ [CallRemoteWrite t] in
                        match remoteWrite t img auth e2 with
                        | (e3, Err e) => (mkWorld e3 cs5, Err (ErrPush (Name t) e))
                        | (e3, Ok _) => digestStep t img e3 cs5
                        end
                  end
              end
          end
      end
  end.
Proof.
  unfold publishSingle, publishedTagName, digestStep. cbv zeta.
  destruct (layers spec) as [ls|err]; [|reflexivity].
  unfold mbind, M_bind, wrapErr, callImagePartsFromArgs, callReadImage, callNewTag,
    callKeychainResolve, callRemoteWrite, callDigest, logged, mret, M_ret.
  cbn [env calls].
  destruct (ImagePartsFromArgs (imgConfig spec) "" (imgTarball spec) ls) as [parts|e];
    [|reflexivity].
  cbn [env calls].
  destruct (ReadImage parts (env w)) as [e1 [img|e]]; [|reflexivity].
  destruct (negb (String.eqb (ImgChroot flags) "")); cbn [env calls].
  - destruct (NewTag (pathJoin (ImgChroot flags) (stamper (name spec))) WeakValidation)
      as [t|e]; [|reflexivity].
    cbn [env calls].
    destruct (KeychainResolve (Context t) e1) as [e2 [auth|e]]; [|reflexivity].
    destruct (NoPush flags); cbn [negb env calls].
    + destruct (imgDigest img e2) as [e4 [d|e]]; reflexivity.
    + destruct (remoteWrite t img auth e2) as [e3 [[]|e]]; [|reflexivity].
      cbn [env calls]. destruct (imgDigest img e3) as [e4 [d|e]]; reflexivity.
  - destruct (NewTag (stamper (name spec)) WeakValidation) as [t|e]; [|reflexivity].
    cbn [env calls].
    destruct (KeychainResolve (Context t) e1) as [e2 [auth|e]]; [|reflexivity].
    destruct (NoPush flags); cbn [negb env calls].
    + destruct (imgDigest img e2) as [e4 [d|e]]; reflexivity.
    + destruct (remoteWrite t img auth e2) as [e3 [[]|e]]; [|reflexivity].
      cbn [env calls]. destruct (imgDigest img e3) as [e4 [d|e]]; reflexivity.
Qed.

End PublishSingle.

Lemma layers_unequal_lengths s :
  ~ (List.length (digests s) = List.length (diffIDs s) /\
     List.length (diffIDs s) = List.length (compressedLayers s) /\
     List.length (compressedLayers s) = List.length (uncomressedLayers s)) ->
  layers s = Err (ErrUnequalLengths (name s)
                    (List.length (digests s)) (List.length (diffIDs s))
                    (List.length (compressedLayers s))
                    (List.length (uncomressedLayers s))).
Proof.
  intros Hne. unfold layers.
  destruct (Nat.eqb_spec (List.length (digests s)) (List.length (diffIDs s))) as [E1|]; [|done].
  destruct (Nat.eqb_spec (List.length (diffIDs s)) (List.length (compressedLayers s))) as [E2|]; [|done].
  destruct (Nat.eqb_spec (List.length (compressedLayers s)) (List.length (uncomressedLayers s))) as [E3|]; [|done].
  by destruct Hne.
Qed.

(** X7. A spec whose four layer lists do not have one length is turned
    down by [publishSingle] before anything else happens: the error wraps
    the length error of [layers] under the image name, and no
    collaborator has been called. *)
Theorem publishSingle_rejects_unequal_layers `{X : Externals}
    (spec : imageSpec) (stamper : Stamper) (w : world) :
  ~ (List.length (digests spec) = List.length (diffIDs spec) /\
     List.length (diffIDs spec) = List.length (compressedLayers spec) /\
     List.length (compressedLayers spec) = List.length (uncomressedLayers spec)) ->
  publishSingle spec stamper w =
    (w, Err (ErrLayerParts (name spec)
               (ErrUnequalLengths (name spec)
                  (List.length (digests spec)) (List.length (diffIDs spec))
                  (List.length (compressedLayers spec))
                  (List.length (uncomressedLayers spec))))).
Proof.
  intros H. rewrite publishSingle_cases. by rewrite (layers_unequal_lengths _ H).
Qed.

Lemma publishSingle_rejects_unequal_layers_witness :
  publishSingle (X := Fake.externals)
    (mkImageSpec "gcr.io/foo/bar:v1" "" "c" ["d0"] [] ["c0"] ["u0"]) id Fake.emptyWorld
  = (Fake.emptyWorld,
     Err (ErrLayerParts "gcr.io/foo/bar:v1" (ErrUnequalLengths "gcr.io/foo/bar:v1" 1 0 1 1))).
Proof.
  apply (publishSingle_rejects_unequal_layers (X := Fake.externals)
           (mkImageSpec "gcr.io/foo/bar:v1" "" "c" ["d0"] [] ["c0"] ["u0"]) id Fake.emptyWorld).
  simpl. intros [H _]. discriminate H.
Defined.

(** X8. A successful [publishSingle] has built the layer tokens, read the
    image, parsed the stamped name (under the chroot when there is one)
    as a tag with weak validation, asked the keychain, pushed unless
    pushing is off, and taken the digest, in that order and nothing
    else; what it returns is registry "/" repository "@" digest of that
    tag. *)
Theorem publishSingle_success_steps `{X : Externals}
    (spec : imageSpec) (stamper : Stamper) (w w' : world) (ref : string) :
  publishSingle spec stamper w = (w', Ok ref) ->
  exists ls t d,
    layers spec = Ok ls /\
    NewTag (publishedTagName spec stamper) WeakValidation = Ok t /\
    ref = RegistryStr (Context t) +:+ "/" +:+ RepositoryStr (Context t) +:+ "@" +:+ d /\
    calls w' = calls w ++ publishCalls spec ls (publishedTagName spec stamper) t.
Proof.
  rewrite publishSingle_cases. cbv zeta. unfold publishCalls, digestStep.
  destruct (layers spec) as [ls|]; [|done].
  destruct (ImagePartsFromArgs _ _ _ _) as [parts|]; [|done].
  destruct (ReadImage parts (env w)) as [e1 [img|]]; [|done].
  destruct (NewTag _ _) as [t|]; [|done].
  destruct (KeychainResolve _ _) as [e2 [auth|]]; [|done].
  destruct (NoPush flags).
  - destruct (imgDigest img e2) as [e4 [d|]]; [|done].
    intros [= <- <-]. exists ls, t, d. repeat split. cbn [calls].
    by rewrite <- !app_assoc.
  - destruct (remoteWrite t img auth e2) as [e3 [[]|]]; [|done].
    destruct (imgDigest img e3) as [e4 [d|]]; [|done].
    intros [= <- <-]. exists ls, t, d. repeat split. cbn [calls].
    by rewrite <- !app_assoc.
Qed.

Lemma publishSingle_success_steps_witness :
  exists w' t,
    publishSingle (X := Fake.externals) (Fake.spec "gcr.io/foo/bar:v1" "c1") id Fake.emptyWorld
      = (w', Ok "gcr.io/foo/bar@sha256:c1") /\
    calls w' = [CallImagePartsFromArgs "c1" "" []; CallReadImage;
                CallNewTag "gcr.io/foo/bar:v1" WeakValidation;
                CallKeychainResolve (Context t); CallRemoteWrite t; CallDigest].
Proof.
  destruct (publishSingle (X := Fake.externals) (Fake.spec "gcr.io/foo/bar:v1" "c1") id
              Fake.emptyWorld) as [w' [ref|e]] eqn:Hrun; [|discriminate Hrun].
  destruct (publishSingle_success_steps (X := Fake.externals) _ _ _ _ _ Hrun)
    as (ls & t & d & Hls & Ht & Href & Hcalls).
  injection Hls as <-. injection Ht as <-.
  eexists w', _. split.
  - injection Hrun as _ <-. reflexivity.
  - exact Hcalls.
Defined.

Lemma publishSingle_call_counts `{X : Externals}
    (spec : imageSpec) (stamper : Stamper) (w w' : world) (r : result string) :
  publishSingle spec stamper w = (w', r) ->
  pushes (calls w') <= pushes (calls w) + 1 /\
  fetches (calls w') = fetches (calls w) /\
  (NoPush flags = true -> pushes (calls w') = pushes (calls w)) /\
  (NoPush flags = false -> is_ok r = true -> pushes (calls w') = pushes (calls w) + 1) /\
  (pushes (calls w') = pushes (calls w) + 1 ->
   is_ok r = true \/ (exists n e, r = Err (ErrPush n e)) \/ (exists n, r = Err (ErrDigest n))).
Proof.
  rewrite publishSingle_cases. cbv zeta. unfold digestStep.
  destruct (layers spec) as [ls|];
    [|intros [= <- <-]; repeat split; try lia; try done; intros; lia].
  destruct (ImagePartsFromArgs _ _ _ _) as [parts|];
    [|intros [= <- <-]; cbn [calls]; rewrite ?pushes_app, ?fetches_app; unfold pushes, fetches; simpl;
      repeat split; try lia; try done; intros; lia].
  destruct (ReadImage parts (env w)) as [e1 [img|]];
    [|intros [= <- <-]; cbn [calls]; rewrite ?pushes_app, ?fetches_app; unfold pushes, fetches; simpl;
      repeat split; try lia; try done; intros; lia].
  destruct (NewTag _ _) as [t|];
    [|intros [= <- <-]; cbn [calls]; rewrite ?pushes_app, ?fetches_app; unfold pushes, fetches; simpl;
      repeat split; try lia; try done; intros; lia].
  destruct (KeychainResolve _ _) as [e2 [auth|]];
    [|intros [= <- <-]; cbn [calls]; rewrite ?pushes_app, ?fetches_app; unfold pushes, fetches; simpl;
      repeat split; try lia; try done; intros; lia].
  destruct (NoPush flags).
  - destruct (imgDigest img e2) as [e4 [d|]];
      intros [= <- <-]; cbn [calls]; rewrite ?pushes_app, ?fetches_app; unfold pushes, fetches; simpl;
      repeat split; try lia; try done; intros; lia.
  - destruct (remoteWrite t img auth e2) as [e3 [[]|]].
    + destruct (imgDigest img e3) as [e4 [d|]];
        intros [= <- <-]; cbn [calls]; rewrite ?pushes_app, ?fetches_app; unfold pushes, fetches; simpl;
        repeat split; try lia; try done; intros;
        first [by left | right; right; by eexists | lia].
    + intros [= <- <-]; cbn [calls]; rewrite ?pushes_app, ?fetches_app; unfold pushes, fetches; simpl;
        repeat split; try lia; try done; intros;
        first [right; left; by do 2 eexists | lia].
Qed.


(** X9. One [publishSingle] writes to the registry at most once and
    never fetches from it.  With pushing off it never writes, however it
    ends.  With pushing on it has written exactly once when it succeeds,
    and a write was made only if it succeeded or failed in the push
    itself or in the digest after it: never when the layers, the image,
    the tag or the credentials were at fault. *)
Theorem publishSingle_pushes_at_most_once `{X : Externals}
    (spec : imageSpec) (stamper : Stamper) (w w' : world) (r : result string) :
  publishSingle spec stamper w = (w', r) ->
  pushes (calls w') <= pushes (calls w) + 1 /\
  fetches (calls w') = fetches (calls w) /\
  (NoPush flags = true -> pushes (calls w') = pushes (calls w)) /\
  (NoPush flags = false -> is_ok r = true -> pushes (calls w') = pushes (calls w) + 1) /\
  (pushes (calls w') = pushes (calls w) + 1 ->
   is_ok r = true \/ (exists n e, r = Err (ErrPush n e)) \/ (exists n, r = Err (ErrDigest n))).
Proof. apply publishSingle_call_counts. Qed.

Lemma publishSingle_pushes_at_most_once_witness :
  exists w',
    (publishSingle (X := Fake.externals) (Fake.spec "gcr.io/foo/bar:v1" "c1") id
       Fake.emptyWorld).1 = w' /\
    pushes (calls w') = 1 /\ fetches (calls w') = 0.
Proof.
  destruct (publishSingle (X := Fake.externals) (Fake.spec "gcr.io/foo/bar:v1" "c1") id
              Fake.emptyWorld) as [w' r] eqn:Hrun.
  destruct (publishSingle_pushes_at_most_once (X := Fake.externals) _ _ _ _ _ Hrun)
    as (_ & Hf & _ & Hp & _).
  exists w'. split; [reflexivity|]. split.
  - apply Hp; [reflexivity|]. injection Hrun as _ <-. reflexivity.
  - exact Hf.
Defined.

Section PublishCounts.
Context `{X : Externals}.

Lemma published_call_counts stamper specs w w' ds :
  published stamper specs w w' ds ->
  pushes (calls w') =
    pushes (calls w) + (if NoPush flags then 0 else List.length specs) /\
  fetches (calls w') = fetches (calls w).
Proof.
  induction 1 as [w|s rest w w1 w2 d ds Hs _ [IHp IHf]].
  - simpl. destruct (NoPush flags); lia.
  - destruct (publishSingle_call_counts _ _ _ _ _ Hs) as (_ & Hf & Hoff & Hon & _).
    rewrite IHp, IHf, Hf. split; [|done]. simpl.
    destruct (NoPush flags) eqn:E.
    + rewrite Hoff by done. lia.
    + rewrite Hon by done. lia.
Qed.

End PublishCounts.

(** X10. [publish] pushes once per spec, not once per name: when it
    succeeds with pushing on, the registry has been written as many
    times as there are specs, repeated names included.  With pushing off
    it is never written, whether [publish] succeeds or fails; and
    [publish] never fetches. *)
Theorem publish_pushes_once_per_spec `{X : Externals}
    (specs : list imageSpec) (stamper : Stamper) (w : world) :
  match publish specs stamper w with
  | (w', Ok _) =>
      pushes (calls w') =
        pushes (calls w) + (if NoPush flags then 0 else List.length specs) /\
      fetches (calls w') = fetches (calls w)
  | (w', Err _) =>
      pushes (calls w') <= pushes (calls w) + List.length specs /\
      (NoPush flags = true -> pushes (calls w') = pushes (calls w)) /\
      fetches (calls w') = fetches (calls w)
  end.
Proof.
  pose proof (publishLoop_run stamper specs ∅ ∅ w) as Hrun. unfold publish.
  destruct (publishLoop specs stamper ∅ ∅ w) as [w' [[ov un]|e]].
  - destruct Hrun as (ds & Hp & _). by apply published_call_counts in Hp.
  - destruct Hrun as (pre & s & post & w1 & ds & -> & Hp & Hfail).
    apply published_call_counts in Hp as [Hp Hf].
    destruct (publishSingle_call_counts _ _ _ _ _ Hfail) as (Hle & Hf' & Hoff & _ & _).
    rewrite length_app. simpl. split; [|split].
    + destruct (NoPush flags); lia.
    + intros E. rewrite Hoff, Hp, E by done. lia.
    + congruence.
Qed.

Lemma publish_pushes_once_per_spec_witness :
  let specs := [Fake.spec "gcr.io/foo/bar:v1" "c1"; Fake.spec "gcr.io/foo/bar:v1" "c2"] in
  exists w' ov un,
    publish (X := Fake.externals) specs id Fake.emptyWorld = (w', Ok (ov, un)) /\
    size un = 1 /\ pushes (calls w') = 2.
Proof.
  intros specs.
  pose proof (publish_pushes_once_per_spec (X := Fake.externals) specs id Fake.emptyWorld) as H.
  destruct (publish (X := Fake.externals) specs id Fake.emptyWorld)
    as [w' [[ov un]|e]] eqn:Hpub; [|discriminate Hpub].
  exists w', ov, un. split; [reflexivity|]. split.
  - injection Hpub as _ _ <-. reflexivity.
  - exact (proj1 H).
Defined.

Lemma size_list_to_set_NoDup (l : list string) :
  size (list_to_set l : gset string) = List.length l <-> NoDup l.
Proof.
  split; [|apply size_list_to_set].
  induction l as [|x l IH]; [constructor|].
  rewrite list_to_set_cons. cbn [List.length]. intros Hsize.
  pose proof (size_list_to_set_le l) as Hle.
  destruct (decide (x ∈ l)) as [Hin|Hin].
  - replace ({[x]} ∪ list_to_set l) with (list_to_set l : gset string) in Hsize by set_solver.
    lia.
  - rewrite size_union, size_singleton in Hsize by set_solver.
    constructor; [done|]. apply IH. lia.
Qed.

(** X11. After a successful [publish] the overrides map and the unseen
    set have the same number of entries, never more than there are specs,
    and exactly as many when and only when the names of the specs are
    pairwise distinct. *)
Theorem publish_sizes `{X : Externals}
    (specs : list imageSpec) (stamper : Stamper) (w w' : world)
    (overrides : gmap string string) (un : gset string) :
  publish specs stamper w = (w', Ok (overrides, un)) ->
  size overrides = size un /\
  size un <= List.length specs /\
  (size un = List.length specs <-> NoDup (name <$> specs)).
Proof.
  intros Hpub.
  pose proof (publishLoop_run stamper specs ∅ ∅ w) as Hrun.
  unfold publish in Hpub. rewrite Hpub in Hrun.
  destruct Hrun as (ds & Hp & -> & ->).
  pose proof (published_length _ _ _ _ _ Hp) as Hlen.
  replace (list_to_set (name <$> specs) ∪ ∅) with
    (list_to_set (name <$> specs) : gset string) by set_solver.
  split; [|split].
  - rewrite <- size_dom, dom_assignAll, fst_zip by (rewrite length_fmap; lia).
    f_equal. set_solver.
  - rewrite <- (length_fmap name specs). apply size_list_to_set_le.
  - rewrite <- (length_fmap name specs). apply size_list_to_set_NoDup.
Qed.

Lemma publish_sizes_witness :
  let specs := [Fake.spec "gcr.io/foo/bar:v1" "c1"; Fake.spec "gcr.io/foo/baz:v1" "c2"] in
  exists w' ov un,
    publish (X := Fake.externals) specs id Fake.emptyWorld = (w', Ok (ov, un)) /\
    size ov = size un /\ size un = 2.
Proof.
  intros specs.
  destruct (publish (X := Fake.externals) specs id Fake.emptyWorld)
    as [w' [[ov un]|e]] eqn:Hpub; [|discriminate Hpub].
  destruct (publish_sizes (X := Fake.externals) _ _ _ _ _ _ Hpub) as (H1 & _ & H3).
  exists w', ov, un. split; [reflexivity|]. split; [exact H1|].
  apply H3. simpl. repeat constructor; set_solver.
Defined.

(** ** More on the walk *)

Lemma item_ind' (P : item -> Prop) :
  P INil -> (forall s, P (IStr s)) -> (forall n, P (IInt n)) ->
  (forall b, P (IBool b)) -> (forall r, P (IOther r)) ->
  (forall l, Forall P l -> P (IList l)) ->
  (forall m, Forall (fun kv => P kv.1 /\ P kv.2) m -> P (IMap m)) ->
  forall i, P i.
Proof.
  intros Hnil Hstr Hint Hbool Hother Hlist Hmap.
  fix IH 1.
  intros [|s|n|b|r|l|m];
    [apply Hnil|apply Hstr|apply Hint|apply Hbool|apply Hother| |].
  - apply Hlist. induction l as [|x l IHl]; constructor; [apply IH|apply IHl].
  - apply Hmap. induction m as [|[k v] m IHm]; constructor; [split; apply IH|apply IHm].
Qed.

Lemma stringsOf_IList_cons x l :
  stringsOf (IList (x :: l)) = stringsOf x ∪ stringsOf (IList l).
Proof. reflexivity. Qed.

Lemma stringsOf_IMap_cons k v m :
  stringsOf (IMap ((k, v) :: m)) = stringsOf k ∪ stringsOf v ∪ stringsOf (IMap m).
Proof. reflexivity. Qed.

Section DefaultWalk.
Context `{X : Externals}.

Lemma tracked_refl st : tracked st st ∅.
Proof. unfold tracked. split; [set_solver|done]. Qed.

Lemma tracked_trans st st1 st2 A B :
  tracked st st1 A -> tracked st1 st2 B -> tracked st st2 (A ∪ B).
Proof.
  intros (U1 & C1 & N1) (U2 & C2 & N2). unfold tracked.
  split; [rewrite U2, U1; set_solver|]. split; [auto|congruence].
Qed.

Lemma resolveString_tracked s st :
  exists st' v, resolveString s st = (st', Ok v) /\ tracked st st' {[s]}.
Proof.
  destruct st as [r w].
  destruct (resolveString s (r, w)) as [st' o] eqn:H.
  destruct (resolveString_effect _ _ _ _ _ H) as (v & -> & Hun & Hnum & Hpath).
  exists st', v. split; [done|]. unfold tracked. cbn [fst].
  split; [done|]. split; [|done].
  intros k u Hk.
  destruct Hpath as [[_ ->]|[(_ & _ & -> & _)|(Hmiss & _ & -> & _)]].
  - cbn [fst]. by rewrite markSeen_resolvedImages.
  - done.
  - rewrite lookup_insert_ne; [done|]. congruence.
Qed.

Lemma resolveItem_default i : forall st,
  exists st' o, resolveItem resolveString i st = (st', Ok o) /\
                tracked st st' (stringsOf i).
Proof.
  induction i as [|s|n|b|r|l IHl|m IHm] using item_ind'; intros st;
    try (exists st; eexists; split; [reflexivity|apply tracked_refl]).
  - destruct (resolveString_tracked s st) as (st' & v & H & Ht).
    exists st', (IStr v). split; [|done].
    cbn [resolveItem]. unfold mbind, M_bind. by rewrite H.
  - assert (forall out st, exists st' res,
              resolveListLoop resolveString l out st = (st', Ok res) /\
              tracked st st' (stringsOf (IList l))) as Hloop.
    { clear st. induction IHl as [|x l Hx _ IH]; intros out st.
      - exists st, out. split; [done|apply tracked_refl].
      - destruct (Hx st) as (st1 & o & Ho & T1).
        destruct (IH (out ++ [o]) st1) as (st2 & res & Hres & T2).
        exists st2, res. cbn [resolveListLoop]. unfold mbind, M_bind, wrapErr.
        rewrite Ho, Hres. split; [done|].
        rewrite stringsOf_IList_cons. by eapply tracked_trans. }
    destruct (Hloop [] st) as (st' & res & Hres & T).
    exists st', (IList res). rewrite resolveItem_IList. unfold resolveList.
    by rewrite Hres.
  - assert (forall out st, exists st' res,
              resolveMapLoop resolveString m out st = (st', Ok res) /\
              tracked st st' (stringsOf (IMap m))) as Hloop.
    { clear st. induction IHm as [|[k v] m [Hk Hv] _ IH]; intros out st.
      - exists st, out. split; [done|apply tracked_refl].
      - simpl in Hk, Hv.
        destruct (Hk st) as (st1 & rk & Hrk & T1).
        destruct (Hv st1) as (st2 & rv & Hrv & T2).
        destruct (IH (mapSet out rk rv) st2) as (st3 & res & Hres & T3).
        exists st3, res. cbn [resolveMapLoop]. unfold mbind, M_bind, wrapErr.
        rewrite Hrk, Hrv, Hres. split; [done|].
        rewrite stringsOf_IMap_cons.
        eapply tracked_trans; [eapply tracked_trans|]; eassumption. }
    destruct (Hloop [] st) as (st' & res & Hres & T).
    exists st', (IMap res). rewrite resolveItem_IMap. unfold resolveMap.
    by rewrite Hres.
Qed.

End DefaultWalk.

(** X12. With the default string resolver the walk over a document never
    fails, whatever the registry answers.  It takes exactly the strings of
    the document (map keys included) out of the unseen set, keeps every
    cache entry with its value, and leaves the document counter alone. *)
Theorem resolveItem_default_never_fails `{X : Externals} (i : item) (st : rstate) :
  exists st' o,
    resolveItem resolveString i st = (st', Ok o) /\
    unseen st'.1 = unseen st.1 ∖ stringsOf i /\
    (forall k v, resolvedImages st.1 !! k = Some v -> resolvedImages st'.1 !! k = Some v) /\
    numDocs st'.1 = numDocs st.1.
Proof. apply resolveItem_default. Qed.

(** X13. Publishing and then walking a document with the default
    resolver leaves in the unseen set exactly the published names that
    are not strings of the document; it ends empty when and only when
    every published name occurs in the document. *)
Theorem publish_then_walk_unseen `{X : Externals}
    (specs : list imageSpec) (stamper : Stamper) (w w' : world)
    (overrides : gmap string string) (un : gset string) (doc : item) :
  publish specs stamper w = (w', Ok (overrides, un)) ->
  exists st' o,
    resolveItem resolveString doc (mkResolver overrides un 0, w') = (st', Ok o) /\
    unseen st'.1 = list_to_set (name <$> specs) ∖ stringsOf doc /\
    (unseen st'.1 = ∅ <-> forall s, s ∈ specs -> name s ∈ stringsOf doc).
Proof.
  intros Hpub.
  pose proof (publishLoop_run stamper specs ∅ ∅ w) as Hrun.
  unfold publish in Hpub. rewrite Hpub in Hrun.
  destruct Hrun as (ds & _ & _ & ->).
  destruct (resolveItem_default doc
              (mkResolver overrides (list_to_set (name <$> specs) ∪ ∅) 0, w'))
    as (st' & o & Hwalk & Hun & _ & _).
  exists st', o. split; [done|]. cbn [fst unseen] in Hun.
  assert (unseen st'.1 = list_to_set (name <$> specs) ∖ stringsOf doc) as Heq
    by (rewrite Hun; set_solver).
  split; [done|]. rewrite Heq. split.
  - intros Hempty s Hs.
    destruct (decide (name s ∈ stringsOf doc)) as [|Hn]; [done|].
    assert (name s ∈ (list_to_set (name <$> specs) ∖ stringsOf doc : gset string)) as Hin.
    { apply elem_of_difference. split; [|done].
      apply elem_of_list_to_set, list_elem_of_fmap. by exists s. }
    rewrite Hempty in Hin. by apply elem_of_empty in Hin.
  - intros Hall. apply set_eq. intros n. split; [|by intros ?%elem_of_empty].
    intros [Hin Hn]%elem_of_difference.
    apply elem_of_list_to_set, list_elem_of_fmap in Hin as (s & -> & Hs).
    exfalso. by apply Hn, Hall.
Qed.

Lemma publish_then_walk_unseen_witness :
  let specs := [Fake.spec "gcr.io/foo/bar:v1" "c1"; Fake.spec "gcr.io/foo/baz:v1" "c2"] in
  let doc := IMap [(IStr "image", IStr "gcr.io/foo/bar:v1")] in
  exists w' ov un st' o,
    publish (X := Fake.externals) specs id Fake.emptyWorld = (w', Ok (ov, un)) /\
    resolveItem (X := Fake.externals) resolveString doc (mkResolver ov un 0, w') = (st', Ok o) /\
    unseen st'.1 = {["gcr.io/foo/baz:v1"]}.
Proof.
  intros specs doc.
  destruct (publish (X := Fake.externals) specs id Fake.emptyWorld)
    as [w' [[ov un]|e]] eqn:Hpub; [|discriminate Hpub].
  destruct (publish_then_walk_unseen (X := Fake.externals) _ _ _ _ _ _ doc Hpub)
    as (st' & o & Hwalk & Hun & _).
  exists w', ov, un, st', o. split; [reflexivity|]. split; [exact Hwalk|].
  rewrite Hun. simpl. set_solver.
Defined.

Lemma mapSet_fresh out k v : mapGet out k = None -> mapSet out k v = out ++ [(k, v)].
Proof.
  induction out as [|[k0 v0] out IH]; simpl; [done|].
  destruct (item_eqb k0 k); [done|]. intros H. by rewrite IH.
Qed.

Lemma setAll_distinct m : forall out,
  NoDup (out.*1 ++ m.*1) -> setAll out m = out ++ m.
Proof.
  induction m as [|[k v] m IH]; intros out Hnd.
  - by rewrite app_nil_r.
  - change (setAll out ((k, v) :: m)) with (setAll (mapSet out k v) m).
    rewrite fmap_cons in Hnd. simpl in Hnd.
    assert (mapGet out k = None) as Hk.
    { apply mapGet_None. apply NoDup_app in Hnd as (_ & Hdis & _).
      intros Hin. apply (Hdis k Hin). apply list_elem_of_here. }
    rewrite mapSet_fresh by done.
    rewrite IH; [by rewrite <- app_assoc|].
    rewrite fmap_app, <- app_assoc. done.
Qed.

Section PassThrough.
Context `{X : Externals}.
Variable strResolver : string -> M rstate string.
Variable I : rstate -> Prop.

Lemma resolveItem_passthrough i :
  (forall s st, s ∈ stringsOf i -> I st ->
     exists st', strResolver s st = (st', Ok s) /\ I st') ->
  distinctKeys i ->
  forall st, I st ->
    exists st', resolveItem strResolver i st = (st', Ok i) /\ I st'.
Proof.
  induction i as [|s|n|b|r|l IHl|m IHm] using item_ind'; intros Hstr Hd st Hst;
    try (by exists st).
  - destruct (Hstr s st ltac:(set_solver) Hst) as (st' & H & Hst').
    exists st'. cbn [resolveItem]. unfold mbind, M_bind. by rewrite H.
  - assert (forall out st, I st -> exists st',
              resolveListLoop strResolver l out st = (st', Ok (out ++ l)) /\ I st') as Hloop.
    { clear st Hst. induction IHl as [|x l Hx _ IH]; intros out st Hst.
      - exists st. by rewrite app_nil_r.
      - destruct Hd as [Hdx Hdl]. rewrite stringsOf_IList_cons in Hstr.
        destruct (Hx ltac:(intros; apply Hstr; [set_solver|done]) Hdx st Hst)
          as (st1 & Ho & Hst1).
        destruct (IH ltac:(intros; apply Hstr; [set_solver|done]) Hdl (out ++ [x]) st1 Hst1)
          as (st2 & Hres & Hst2).
        exists st2. cbn [resolveListLoop]. unfold mbind, M_bind, wrapErr.
        rewrite Ho, Hres. by rewrite <- app_assoc. }
    destruct (Hloop [] st Hst) as (st' & Hres & Hst').
    exists st'. rewrite resolveItem_IList. unfold resolveList. by rewrite Hres.
  - assert (forall out st, I st -> exists st',
              resolveMapLoop strResolver m out st = (st', Ok (setAll out m)) /\ I st')
      as Hloop.
    { clear st Hst. destruct Hd as [_ Hd].
      induction IHm as [|[k v] m [Hk Hv] _ IH]; intros out st Hst.
      - by exists st.
      - destruct Hd as (Hdk & Hdv & Hdm). rewrite stringsOf_IMap_cons in Hstr.
        simpl in Hk, Hv.
        destruct (Hk ltac:(intros; apply Hstr; [set_solver|done]) Hdk st Hst)
          as (st1 & Hrk & Hst1).
        destruct (Hv ltac:(intros; apply Hstr; [set_solver|done]) Hdv st1 Hst1)
          as (st2 & Hrv & Hst2).
        destruct (IH ltac:(intros; apply Hstr; [set_solver|done]) Hdm (mapSet out k v) st2 Hst2)
          as (st3 & Hres & Hst3).
        exists st3. cbn [resolveMapLoop]. unfold mbind, M_bind, wrapErr.
        by rewrite Hrk, Hrv, Hres. }
    destruct (Hloop [] st Hst) as (st' & Hres & Hst').
    exists st'. rewrite resolveItem_IMap. unfold resolveMap. rewrite Hres.
    destruct Hd as [Hnd _]. by rewrite setAll_distinct.
Qed.

End PassThrough.

(** X14. A string resolver that hands every string of the document back
    unchanged makes the walk hand the document back unchanged, entry for
    entry, provided the maps of the document have distinct keys (as the
    maps the decoder builds do): rebuilding the lists and maps loses
    nothing and reorders nothing. *)
Theorem resolveItem_identity_on_unchanged_strings `{X : Externals}
    (strResolver : string -> M rstate string) (i : item) :
  (forall s st, s ∈ stringsOf i -> exists st', strResolver s st = (st', Ok s)) ->
  distinctKeys i ->
  forall st, exists st', resolveItem strResolver i st = (st', Ok i).
Proof.
  intros Hstr Hd st.
  destruct (resolveItem_passthrough strResolver (fun _ => True) i) with (st := st)
    as (st' & H & _); [|done|done|by exists st'].
  intros s st0 Hs _. destruct (Hstr s st0 Hs) as [st1 H1]. by exists st1.
Qed.

Lemma resolveItem_identity_on_unchanged_strings_witness :
  let doc := IMap [(IStr "kind", IStr "Deployment"); (IStr "replicas", IInt 3);
                   (IStr "args", IList [IStr "a"; IBool true; INil])] in
  exists st', resolveItem (X := Fake.externals) (fun s => mret s) doc Fake.emptyState
              = (st', Ok doc).
Proof.
  intros doc.
  apply (resolveItem_identity_on_unchanged_strings (X := Fake.externals) (fun s => mret s) doc).
  - intros s st _. by exists st.
  - simpl. repeat split; auto.
    repeat (constructor; [set_solver|]). constructor.
Defined.

Lemma resolveItem_default_unchanged `{X : Externals} (i : item) (st : rstate) :
  (forall s, s ∈ stringsOf i ->
     resolvedImages st.1 !! s = None /\ is_ok (NewTag s StrictValidation) = false) ->
  distinctKeys i ->
  exists st',
    resolveItem resolveString i st = (st', Ok i) /\
    resolvedImages st'.1 = resolvedImages st.1 /\
    env st'.2 = env st.2 /\
    fetches (calls st'.2) = fetches (calls st.2).
Proof.
  intros Hstr Hd.
  apply (resolveItem_passthrough resolveString
           (fun st' => resolvedImages st'.1 = resolvedImages st.1 /\
                       env st'.2 = env st.2 /\
                       fetches (calls st'.2) = fetches (calls st.2))); [|done|done].
  intros s [r w] Hs (Hc & He & Hf). cbn [fst snd] in *.
  destruct (Hstr s Hs) as [Hmiss Hparse].
  eexists. rewrite resolveString_cases. cbv zeta. rewrite Hc, Hmiss.
  destruct (NewTag s StrictValidation); [done|].
  split; [reflexivity|]. cbn [fst snd env calls].
  rewrite markSeen_resolvedImages, fetches_snoc. simpl.
  repeat split; [done|done|lia].
Qed.


(** X15. The default resolver leaves a document alone when none of its
    strings is a cache key or parses as a strict tag reference: the
    document comes back as it was, the cache is unchanged, the
    environment is untouched and nothing is fetched. *)
Theorem resolveItem_default_passes_non_images `{X : Externals} (i : item) (st : rstate) :
  (forall s, s ∈ stringsOf i ->
     resolvedImages st.1 !! s = None /\ is_ok (NewTag s StrictValidation) = false) ->
  distinctKeys i ->
  exists st',
    resolveItem resolveString i st = (st', Ok i) /\
    resolvedImages st'.1 = resolvedImages st.1 /\
    env st'.2 = env st.2 /\
    fetches (calls st'.2) = fetches (calls st.2).
Proof. apply resolveItem_default_unchanged. Qed.

Lemma resolveItem_default_passes_non_images_witness :
  let doc := IList [IStr "not-an-image"; IInt 1] in
  exists st',
    resolveItem (X := Fake.externals) resolveString doc Fake.emptyState = (st', Ok doc) /\
    resolvedImages st'.1 = ∅.
Proof.
  intros doc.
  destruct (resolveItem_default_passes_non_images (X := Fake.externals) doc Fake.emptyState)
    as (st' & H & Hc & _).
  - intros s Hs. simpl in Hs.
    assert (s = "not-an-image") as -> by set_solver. split; reflexivity.
  - simpl. auto.
  - exists st'. split; [exact H|exact Hc].
Defined.

Section MapFailure.
Context `{X : Externals}.
Variable strResolver : string -> M rstate string.

Lemma resolveMapLoop_failure m : forall out st st' e,
  resolveMapLoop strResolver m out st = (st', Err e) ->
  exists pre k v post st1 ps,
    m = pre ++ (k, v) :: post /\
    resolvedPairs strResolver pre st st1 ps /\
    ((exists e0, resolveItem strResolver k st1 = (st', Err e0) /\ e = ErrMapKey k e0) \/
     (exists st2 rk e0,
        resolveItem strResolver k st1 = (st2, Ok rk) /\
        resolveItem strResolver v st2 = (st', Err e0) /\ e = ErrMapValue v e0)).
Proof.
  induction m as [|[k v] m IH]; intros out st st' e; [done|].
  cbn [resolveMapLoop]. unfold mbind, M_bind, wrapErr.
  destruct (resolveItem strResolver k st) as [st1 [rk|e0]] eqn:Hk.
  - destruct (resolveItem strResolver v st1) as [st2 [rv|e0]] eqn:Hv.
    + intros H. apply IH in H as (pre & k' & v' & post & st3 & ps & -> & Hr & Hfail).
      exists ((k, v) :: pre), k', v', post, st3, ((rk, rv) :: ps).
      split; [done|]. split; [by econstructor|done].
    + intros [= <- <-]. exists [], k, v, m, st, []. split; [done|].
      split; [constructor|]. right. by exists st1, rk, e0.
  - intros [= <- <-]. exists [], k, v, m, st, []. split; [done|].
    split; [constructor|]. left. by exists e0.
Qed.

Lemma resolveMapLoop_abort pre : forall k v post out st st1 ps,
  resolvedPairs strResolver pre st st1 ps ->
  resolveMapLoop strResolver (pre ++ (k, v) :: post) out st =
  resolveMapLoop strResolver ((k, v) :: post) (setAll out ps) st1.
Proof.
  induction pre as [|[k0 v0] pre IH]; intros k v post out st st1 ps Hr.
  - by inversion Hr; subst.
  - inversion Hr as [|? ? ? ? sta stb ? rk rv ps' Hk Hv Hr']; subst.
    change (((k0, v0) :: pre) ++ (k, v) :: post) with ((k0, v0) :: (pre ++ (k, v) :: post)).
    cbn [resolveMapLoop]. unfold mbind, M_bind, wrapErr. rewrite Hk, Hv.
    by rewrite (IH _ _ _ _ _ _ _ Hr').
Qed.

End MapFailure.

(** X16. When [resolveMap] fails, it fails at the first entry, in
    visiting order, whose key or value does not resolve: the entries
    before it resolved, the error names the original key (when the key
    failed) or the original value (when the key resolved and the value
    failed) together with the underlying error, and the entries after it
    were not visited. *)
Theorem resolveMap_first_failure_named `{X : Externals}
    (strResolver : string -> M rstate string)
    (m : list (item * item)) (st st' : rstate) (e : error) :
  resolveMap strResolver m st = (st', Err e) ->
  exists pre k v post st1 ps,
    m = pre ++ (k, v) :: post /\
    resolvedPairs strResolver pre st st1 ps /\
    ((exists e0, resolveItem strResolver k st1 = (st', Err e0) /\ e = ErrMapKey k e0) \/
     (exists st2 rk e0,
        resolveItem strResolver k st1 = (st2, Ok rk) /\
        resolveItem strResolver v st2 = (st', Err e0) /\ e = ErrMapValue v e0)) /\
    forall post', resolveMap strResolver (pre ++ (k, v) :: post') st = (st', Err e).
Proof.
  intros H. unfold resolveMap in *.
  destruct (resolveMapLoop_failure _ _ _ _ _ _ H)
    as (pre & k & v & post & st1 & ps & -> & Hr & Hfail).
  exists pre, k, v, post, st1, ps. repeat (split; [done|]).
  intros post'. rewrite (resolveMapLoop_abort _ _ _ _ _ _ _ _ _ Hr).
  cbn [resolveMapLoop]. unfold mbind, M_bind, wrapErr.
  destruct Hfail as [(e0 & Hk & ->)|(st2 & rk & e0 & Hk & Hv & ->)].
  - by rewrite Hk.
  - by rewrite Hk, Hv.
Qed.

Lemma resolveMap_first_failure_named_witness :
  exists st',
    resolveMap (X := Fake.externals) (Fake.rejecting "bad")
      [(IStr "a", IInt 1); (IStr "b", IStr "bad"); (IStr "bad", IInt 3)] Fake.emptyState
    = (st', Err (ErrMapValue (IStr "bad") (ErrExternal "rejected"))) /\
    forall post',
      resolveMap (X := Fake.externals) (Fake.rejecting "bad")
        ([(IStr "a", IInt 1)] ++ (IStr "b", IStr "bad") :: post') Fake.emptyState
      = (st', Err (ErrMapValue (IStr "bad") (ErrExternal "rejected"))).
Proof.
  destruct (resolveMap (X := Fake.externals) (Fake.rejecting "bad")
      [(IStr "a", IInt 1); (IStr "b", IStr "bad"); (IStr "bad", IInt 3)] Fake.emptyState)
    as [st' [out|e]] eqn:Hrun; [discriminate Hrun|].
  assert (e = ErrMapValue (IStr "bad") (ErrExternal "rejected")) as ->
    by (by injection Hrun as _ <-).
  destruct (resolveMap_first_failure_named (X := Fake.externals) _ _ _ _ _ Hrun)
    as (pre & k & v & post & st1 & ps & Hm & Hr & Hfail & Habort).
  exists st'. split; [reflexivity|].
  destruct pre as [|p0 [|p1 pre]].
  - exfalso. injection Hm as <- <- _. inversion Hr; subst.
    destruct Hfail as [(e0 & Hk & _)|(st2 & rk & e0 & _ & Hv & _)]; discriminate.
  - injection Hm as <- <- <- _. exact Habort.
  - exfalso. injection Hm as <- <- Hrest.
    inversion Hr as [|? ? ? ? ? ? ? ? ? ? _ _ Hr1]; subst.
    inversion Hr1 as [|? ? ? ? ? ? ? ? ? ? _ Hv1 _]; subst. discriminate Hv1.
Defined.

(** X17. Resolving a node never changes its variant: a string resolves
    to a string, a list to a list of the same length, a map to a map with
    no more entries, and every other node (integer, boolean, nil, other
    scalar) is returned as it is without touching the state. *)
Theorem resolveItem_keeps_shape `{X : Externals}
    (strResolver : string -> M rstate string) (i o : item) (st st' : rstate) :
  resolveItem strResolver i st = (st', Ok o) ->
  sameShape i o /\
  match i with
  | IStr _ | IList _ | IMap _ => True
  | _ => o = i /\ st' = st
  end.
Proof.
  destruct i as [|s|n|b|r|l|m].
  - by intros [= <- <-].
  - cbn [resolveItem]. unfold mbind, M_bind.
    destruct (strResolver s st) as [st1 [v|e]]; [|done].
    by intros [= <- <-].
  - by intros [= <- <-].
  - by intros [= <- <-].
  - by intros [= <- <-].
  - rewrite resolveItem_IList.
    pose proof (resolveListLoop_run strResolver l [] st) as Hrun. unfold resolveList.
    destruct (resolveListLoop strResolver l [] st) as [st1 [res|e]]; [|done].
    intros [= <- <-]. destruct Hrun as (outs & Hr & ->). split; [|done].
    simpl. by eapply resolvedItems_length.
  - rewrite resolveItem_IMap.
    destruct (resolveMap strResolver m st) as [st1 [res|e]] eqn:Hrun; [|done].
    intros [= <- <-]. split; [|done].
    apply resolveMapLoop_run in Hrun as (ps & Hr & ->).
    apply resolvedPairs_length in Hr. simpl.
    pose proof (setAll_length_le ps []). simpl in *. lia.
Qed.

Lemma resolveItem_keeps_shape_witness :
  sameShape (IList [IStr "a"; IInt 1]) (IList [IStr "c"; IInt 1]).
Proof.
  apply (resolveItem_keeps_shape (X := Fake.externals) (Fake.constant "c")
           (IList [IStr "a"; IInt 1]) (IList [IStr "c"; IInt 1])
           Fake.emptyState Fake.emptyState).
  reflexivity.
Defined.

(** ** More on the decoder *)

(** X18. Decoding into a fresh document and reading it back with [val]
    gives what the accepted attempt stored, provided a failed sequence or
    mapping attempt leaves its target nil: the list, map, integer,
    boolean or string of the first shape that parsed, nil when the
    accepted attempt stored a nil slice or map (a null document), and nil
    when no shape parsed. *)
Theorem val_reads_accepted_shape (unmarshal : unmarshalFn) :
  (forall l e, intoList unmarshal None = (l, Some e) -> l = None) ->
  (forall m e, intoMap unmarshal None = (m, Some e) -> m = None) ->
  match UnmarshalYAML zeroDoc unmarshal with
  | (y', tried, None) =>
      exists sh, last tried = Some sh /\ val y' = storedBy unmarshal sh
  | (y', tried, Some _) => val y' = INil
  end.
Proof.
  intros Hl Hm. unfold UnmarshalYAML, storedBy. simpl.
  destruct (intoList unmarshal None) as [l [e|]] eqn:El; simpl.
  2:{ exists ShList. split; [done|]. unfold val. simpl. by destruct l. }
  pose proof (Hl _ _ eq_refl) as ->.
  destruct (intoMap unmarshal None) as [m [e'|]] eqn:Em; simpl.
  2:{ exists ShMap. split; [done|]. unfold val. simpl. by destruct m. }
  pose proof (Hm _ _ eq_refl) as ->.
  destruct (intoInt unmarshal 0%Z) as [n [e2|]]; simpl; [|by exists ShInt].
  destruct (intoBool unmarshal false) as [b [e3|]]; simpl; [|by exists ShBool].
  destruct (intoStr unmarshal "") as [s [e4|]]; simpl; [done|by exists ShStr].
Qed.

Lemma val_reads_accepted_shape_witness :
  val (UnmarshalYAML zeroDoc Fake.scalar42).1.1 = IInt 42.
Proof.
  pose proof (val_reads_accepted_shape Fake.scalar42) as H.
  simpl in H. destruct H as (sh & Hsh & Hval); [by intros l e [= <-]|by intros m e [= <-]|].
  reflexivity.
Defined.

(** ** The document stream *)

Section StreamFacts.
Context `{X : Externals}.
Variable strResolver : string -> M rstate string.
Variable encodeErr : list item -> item -> option error.

Lemma resolveDoc_nil y encoded st :
  val y = INil -> resolveDoc strResolver encodeErr y encoded st = (st, inr encoded).
Proof. intros H. unfold resolveDoc. by rewrite H. Qed.

Lemma resolveDoc_cases y encoded st :
  resolveDoc strResolver encodeErr y encoded st =
  match resolveItem strResolver (val y) st with
  | (st', Err e) => (st', inl (YamlResolve e))
  | (st', Ok o) =>
      if notNil o then
        match encodeErr encoded o with
        | Some e => (bumpNumDocs st', inl (YamlEncode e))
        | None => (bumpNumDocs st', inr (encoded ++ [o]))
        end
      else (st', inr encoded)
  end.
Proof.
  unfold resolveDoc.
  destruct (resolveItem strResolver (val y) st) as [st' [o|e]]; [|done].
  by destruct o.
Qed.

Lemma resolveYAMLLoop_skip_nil d1 : forall y d2 encoded st,
  val y = INil ->
  resolveYAMLLoop strResolver encodeErr (d1 ++ (y, DecodeOk) :: d2) encoded st =
  resolveYAMLLoop strResolver encodeErr (d1 ++ d2) encoded st.
Proof.
  induction d1 as [|[y1 [| |e]] d1 IH]; intros y d2 encoded st Hy.
  - simpl. by rewrite resolveDoc_nil.
  - change (((y1, DecodeOk) :: d1) ++ (y, DecodeOk) :: d2)
      with ((y1, DecodeOk) :: (d1 ++ (y, DecodeOk) :: d2)).
    change (((y1, DecodeOk) :: d1) ++ d2) with ((y1, DecodeOk) :: (d1 ++ d2)).
    cbn [resolveYAMLLoop].
    destruct (resolveDoc strResolver encodeErr y1 encoded st) as [st1 [e|enc1]]; [done|].
    by apply IH.
  - done.
  - done.
Qed.

Lemma resolveYAMLLoop_stop d1 : forall y status d2 encoded st,
  status <> DecodeOk ->
  resolveYAMLLoop strResolver encodeErr (d1 ++ (y, status) :: d2) encoded st =
  resolveYAMLLoop strResolver encodeErr (d1 ++ [(y, status)]) encoded st.
Proof.
  induction d1 as [|[y1 [| |e]] d1 IH]; intros y status d2 encoded st Hs.
  - by destruct status.
  - change (((y1, DecodeOk) :: d1) ++ (y, status) :: d2)
      with ((y1, DecodeOk) :: (d1 ++ (y, status) :: d2)).
    change (((y1, DecodeOk) :: d1) ++ [(y, status)])
      with ((y1, DecodeOk) :: (d1 ++ [(y, status)])).
    cbn [resolveYAMLLoop].
    destruct (resolveDoc strResolver encodeErr y1 encoded st) as [st1 [e|enc1]]; [done|].
    by apply IH.
  - done.
  - done.
Qed.

Lemma resolveYAMLLoop_explicit_EOF d1 : forall encoded st,
  resolveYAMLLoop strResolver encodeErr (d1 ++ [(zeroDoc, DecodeEOF)]) encoded st =
  resolveYAMLLoop strResolver encodeErr d1 encoded st.
Proof.
  induction d1 as [|[y1 [| |e]] d1 IH]; intros encoded st; try done.
  change (((y1, DecodeOk) :: d1) ++ [(zeroDoc, DecodeEOF)])
    with ((y1, DecodeOk) :: (d1 ++ [(zeroDoc, DecodeEOF)])).
  cbn [resolveYAMLLoop].
  destruct (resolveDoc strResolver encodeErr y1 encoded st) as [st1 [e|enc1]]; [done|].
  by apply IH.
Qed.

End StreamFacts.

(** X19. A document that decodes to nil leaves no trace: taking it out
    of the stream changes neither the bytes [resolveYAML] returns, nor its
    error, nor the resolver state it ends in (the document counter
    included), whatever the string resolver and the encoder are. *)
Theorem resolveYAML_skips_nil_documents `{X : Externals}
    (strResolver : string -> M rstate string)
    (encodeErr : list item -> item -> option error) (render : list item -> string)
    (d1 d2 : list (yamlDoc * decodeStatus)) (y : yamlDoc) (st : rstate) :
  val y = INil ->
  resolveYAML strResolver encodeErr render (d1 ++ (y, DecodeOk) :: d2) st =
  resolveYAML strResolver encodeErr render (d1 ++ d2) st.
Proof.
  intros Hy. unfold resolveYAML. by rewrite resolveYAMLLoop_skip_nil.
Qed.

Lemma resolveYAML_skips_nil_documents_witness :
  resolveYAML (X := Fake.externals) resolveString (fun _ _ => None) (fun l => "")
    ([(docOf (IStr "a"), DecodeOk)] ++ (zeroDoc, DecodeOk) :: [(docOf (IInt 1), DecodeOk)])
    Fake.emptyState =
  resolveYAML (X := Fake.externals) resolveString (fun _ _ => None) (fun l => "")
    ([(docOf (IStr "a"), DecodeOk)] ++ [(docOf (IInt 1), DecodeOk)]) Fake.emptyState.
Proof.
  apply (resolveYAML_skips_nil_documents (X := Fake.externals)). reflexivity.
Defined.

(** X20. [resolveYAML] reads nothing past the first [Decode] that does
    not return nil: what the decoder would have answered after an
    [io.EOF] or an error plays no part.  A decoder error is returned as
    it is, without the document of that call being resolved; and a
    decoder that ends with [io.EOF] on an untouched document behaves as
    one whose answers are simply used up. *)
Theorem resolveYAML_stops_at_eof_or_error `{X : Externals}
    (strResolver : string -> M rstate string)
    (encodeErr : list item -> item -> option error) (render : list item -> string) :
  (forall d1 y status d2 st,
     status <> DecodeOk ->
     resolveYAML strResolver encodeErr render (d1 ++ (y, status) :: d2) st =
     resolveYAML strResolver encodeErr render (d1 ++ [(y, status)]) st) /\
  (forall y e d2 st,
     resolveYAML strResolver encodeErr render ((y, DecodeFailed e) :: d2) st =
     (st, inl (YamlDecode e))) /\
  (forall d1 st,
     resolveYAML strResolver encodeErr render (d1 ++ [(zeroDoc, DecodeEOF)]) st =
     resolveYAML strResolver encodeErr render d1 st).
Proof.
  split; [|split].
  - intros d1 y status d2 st Hs. unfold resolveYAML.
    by rewrite (resolveYAMLLoop_stop _ _ d1 y status d2).
  - done.
  - intros d1 st. unfold resolveYAML. by rewrite resolveYAMLLoop_explicit_EOF.
Qed.

Lemma resolveYAML_stops_at_eof_or_error_witness :
  resolveYAML (X := Fake.externals) resolveString (fun _ _ => None) (fun l => "")
    ([(docOf (IStr "a"), DecodeOk)] ++
     (zeroDoc, DecodeFailed (ErrExternal "yaml: line 3")) :: [(docOf (IInt 1), DecodeOk)])
    Fake.emptyState =
  resolveYAML (X := Fake.externals) resolveString (fun _ _ => None) (fun l => "")
    ([(docOf (IStr "a"), DecodeOk)] ++ [(zeroDoc, DecodeFailed (ErrExternal "yaml: line 3"))])
    Fake.emptyState.
Proof.
  apply (proj1 (resolveYAML_stops_at_eof_or_error (X := Fake.externals) resolveString
                  (fun _ _ => None) (fun l => ""))).
  discriminate.
Defined.

Section DefaultStream.
Context `{X : Externals}.
Variable encodeErr : list item -> item -> option error.

Lemma resolveYAMLLoop_default ys : forall encoded st,
  match resolveYAMLLoop resolveString encodeErr (documents ys) encoded st with
  | (st', inr encoded') =>
      exists new,
        encoded' = encoded ++ new /\
        numDocs st'.1 = numDocs st.1 + List.length new /\
        Forall (fun o => notNil o = true) new /\
        List.length new <= List.length ys /\
        unseen st'.1 = unseen st.1 ∖ ⋃ (stringsOf ∘ val <$> ys) /\
        (forall k v, resolvedImages st.1 !! k = Some v ->
                     resolvedImages st'.1 !! k = Some v)
  | (st', inl (YamlEncode _)) => True
  | (st', inl _) => False
  end.
Proof.
  induction ys as [|y ys IH]; intros encoded st.
  - simpl. exists []. rewrite app_nil_r. simpl.
    split; [done|]. split; [lia|]. split; [constructor|]. split; [lia|].
    split; [set_solver|done].
  - change (documents (y :: ys)) with ((y, DecodeOk) :: documents ys).
    cbn [resolveYAMLLoop]. rewrite resolveDoc_cases.
    destruct (resolveItem_default (val y) st) as (st1 & o & Ho & (U & C & N)).
    rewrite Ho.
    assert (forall new1 st2,
              numDocs st2.1 = numDocs st.1 + List.length new1 ->
              Forall (fun o => notNil o = true) new1 -> List.length new1 <= 1 ->
              unseen st2.1 = unseen st1.1 -> resolvedImages st2.1 = resolvedImages st1.1 ->
              match resolveYAMLLoop resolveString encodeErr (documents ys)
                      (encoded ++ new1) st2 with
              | (st', inr encoded') =>
                  exists new,
                    encoded' = encoded ++ new /\
                    numDocs st'.1 = numDocs st.1 + List.length new /\
                    Forall (fun o => notNil o = true) new /\
                    List.length new <= List.length (y :: ys) /\
                    unseen st'.1 = unseen st.1 ∖ ⋃ (stringsOf ∘ val <$> (y :: ys)) /\
                    (forall k v, resolvedImages st.1 !! k = Some v ->
                                 resolvedImages st'.1 !! k = Some v)
              | (st', inl (YamlEncode _)) => True
              | (st', inl _) => False
              end) as Hnext.
    { intros new1 st2 Hn Hnn Hlen1 Hu Hc.
      specialize (IH (encoded ++ new1) st2).
      destruct (resolveYAMLLoop resolveString encodeErr (documents ys) (encoded ++ new1) st2)
        as [st' [[]|enc']]; try done.
      destruct IH as (new & -> & Hn' & Hnn' & Hlen & Hu' & Hc').
      exists (new1 ++ new). rewrite <- app_assoc. split; [done|].
      rewrite length_app.
      split; [lia|]. split; [by apply Forall_app|]. split; [simpl; lia|].
      split.
      - rewrite Hu', Hu, U. rewrite fmap_cons. simpl. set_solver.
      - intros k v Hk. apply Hc'. rewrite Hc. by apply C. }
    destruct (notNil o) eqn:Hnil.
    + destruct (encodeErr encoded o) as [e|]; [done|].
      apply (Hnext [o]); [|by repeat constructor|simpl; lia|done|done].
      unfold bumpNumDocs. simpl. rewrite N. lia.
    + specialize (Hnext [] st1). rewrite app_nil_r in Hnext.
      apply Hnext; [simpl; lia|constructor|simpl; lia|done|done].
Qed.

End DefaultStream.

Section DefaultStreamFacts.
Context `{X : Externals}.
Variable encodeErr : list item -> item -> option error.

Lemma resolveYAMLLoop_default_no_walk_error d : forall encoded st st' e,
  resolveYAMLLoop resolveString encodeErr d encoded st <> (st', inl (YamlResolve e)).
Proof.
  assert (forall y encoded st st' e,
            resolveDoc resolveString encodeErr y encoded st <> (st', inl (YamlResolve e)))
    as Hdoc.
  { intros y encoded st st' e. rewrite resolveDoc_cases.
    destruct (resolveItem_default (val y) st) as (st1 & o & -> & _).
    destruct (notNil o); [|done]. by destruct (encodeErr encoded o). }
  induction d as [|[y [| |e0]] d IH]; intros encoded st st' e; cbn [resolveYAMLLoop];
    try apply Hdoc; [|done].
  destruct (resolveDoc resolveString encodeErr y encoded st) as [st1 [e1|enc1]] eqn:Hy.
  - intros [= -> ->]. by apply Hdoc in Hy.
  - apply IH.
Qed.

Lemma resolveYAMLLoop_default_unchanged ys : forall encoded st,
  (forall encoded o, encodeErr encoded o = None) ->
  Forall (fun y => distinctKeys (val y) /\
                   forall s, s ∈ stringsOf (val y) ->
                     resolvedImages st.1 !! s = None /\
                     is_ok (NewTag s StrictValidation) = false) ys ->
  exists st',
    resolveYAMLLoop resolveString encodeErr (documents ys) encoded st =
      (st', inr (encoded ++ List.filter notNil (val <$> ys))) /\
    resolvedImages st'.1 = resolvedImages st.1 /\
    env st'.2 = env st.2 /\
    fetches (calls st'.2) = fetches (calls st.2) /\
    numDocs st'.1 = numDocs st.1 + List.length (List.filter notNil (val <$> ys)).
Proof.
  induction ys as [|y ys IH]; intros encoded st Henc Hall.
  - exists st. simpl. rewrite app_nil_r. repeat split; lia.
  - apply Forall_cons in Hall as [[Hd Hs] Hall].
    change (documents (y :: ys)) with ((y, DecodeOk) :: documents ys).
    cbn [resolveYAMLLoop]. rewrite resolveDoc_cases.
    destruct (resolveItem_default_unchanged (val y) st Hs Hd) as (st1 & Ho & Hc & He & Hf).
    rewrite Ho, fmap_cons. cbn [List.filter].
    destruct (notNil (val y)).
    + rewrite Henc.
      destruct (IH (encoded ++ [val y]) (bumpNumDocs st1) Henc) as (st' & H & Hc' & He' & Hf' & Hn').
      { eapply Forall_impl; [exact Hall|]. intros y' [Hd' Hs']. split; [done|].
        intros s Hin. cbn [bumpNumDocs fst resolvedImages]. rewrite Hc. by apply Hs'. }
      exists st'. rewrite H, <- app_assoc. split; [done|].
      cbn [bumpNumDocs fst snd resolvedImages numDocs] in *.
      repeat split; try congruence.
      destruct (resolveItem_default (val y) st) as (st1' & o' & Ho' & (_ & _ & N)).
      rewrite Ho in Ho'. injection Ho' as <- _. simpl. lia.
    + destruct (IH encoded st1 Henc) as (st' & H & Hc' & He' & Hf' & Hn').
      { eapply Forall_impl; [exact Hall|]. intros y' [Hd' Hs']. split; [done|].
        intros s Hin. rewrite Hc. by apply Hs'. }
      exists st'. rewrite H. split; [done|]. repeat split; try congruence.
      destruct (resolveItem_default (val y) st) as (st1' & o' & Ho' & (_ & _ & N)).
      rewrite Ho in Ho'. injection Ho' as <- _. lia.
Qed.

End DefaultStreamFacts.

(** X21. With the default string resolver [resolveYAML] never fails in
    the walk: its only errors are the decoder's and the encoder's.  On a
    stream of documents that decode without error, when it succeeds, the
    bytes are those of the encoder after the documents it was given, none
    of them nil and at most one per input document; the document counter
    has grown by their number; and the unseen set has lost exactly the
    strings of the input documents. *)
Theorem resolveYAML_default_counts_and_tracks `{X : Externals}
    (encodeErr : list item -> item -> option error) (render : list item -> string) :
  (forall d st st' e,
     resolveYAML resolveString encodeErr render d st <> (st', inl (YamlResolve e))) /\
  (forall ys st st' out,
     resolveYAML resolveString encodeErr render (documents ys) st = (st', inr out) ->
     exists encoded,
       out = render encoded /\
       numDocs st'.1 = numDocs st.1 + List.length encoded /\
       Forall (fun o => o <> INil) encoded /\
       List.length encoded <= List.length ys /\
       unseen st'.1 = unseen st.1 ∖ ⋃ (stringsOf ∘ val <$> ys) /\
       (forall k v, resolvedImages st.1 !! k = Some v ->
                    resolvedImages st'.1 !! k = Some v)).
Proof.
  split.
  - intros d st st' e. unfold resolveYAML.
    destruct (resolveYAMLLoop resolveString encodeErr d [] st) as [st1 [e1|enc]] eqn:H; [|done].
    intros [= -> ->]. by apply resolveYAMLLoop_default_no_walk_error in H.
  - intros ys st st' out. unfold resolveYAML.
    pose proof (resolveYAMLLoop_default encodeErr ys [] st) as Hrun.
    destruct (resolveYAMLLoop resolveString encodeErr (documents ys) [] st)
      as [st1 [e1|enc]]; [done|].
    intros [= <- <-]. destruct Hrun as (new & -> & Hn & Hnn & Hlen & Hu & Hc).
    exists new. simpl. repeat (split; [done|]). split; [|done].
    eapply Forall_impl; [exact Hnn|]. by intros o Ho ->.
Qed.

Lemma resolveYAML_default_counts_and_tracks_witness :
  let ys := [docOf (IStr "gcr.io/foo/bar:v1"); zeroDoc; docOf (IInt 7)] in
  let st := (mkResolver ∅ {["gcr.io/foo/bar:v1"; "gcr.io/foo/baz:v1"]} 0, Fake.emptyWorld) in
  exists st' out (encoded : list item),
    resolveYAML (X := Fake.externals) resolveString (fun _ _ => None) (fun l => "")
      (documents ys) st = (st', inr out) /\
    numDocs st'.1 = List.length encoded /\
    unseen st'.1 = {["gcr.io/foo/baz:v1"]}.
Proof.
  intros ys st.
  destruct (resolveYAML (X := Fake.externals) resolveString (fun _ _ => None) (fun l => "")
              (documents ys) st) as [st' [e|out]] eqn:Hrun; [discriminate Hrun|].
  destruct (proj2 (resolveYAML_default_counts_and_tracks (X := Fake.externals)
                     (fun _ _ => None) (fun l => "")) ys st st' out Hrun)
    as (encoded & _ & Hn & _ & _ & Hu & _).
  exists st', out, encoded. split; [reflexivity|]. split; [exact Hn|].
  rewrite Hu. simpl. set_solver.
Defined.

(** X22. A stream of documents that decode without error and none of
    whose strings is a cache key or a strict tag reference goes through
    [resolveYAML] with the default resolver unchanged, when the encoder
    accepts every document: what is encoded is the input documents in
    order with the nil ones dropped, the cache and the environment are as
    before, nothing was fetched, and the counter has grown by the number
    of non-nil documents. *)
Theorem resolveYAML_default_passes_non_image_stream `{X : Externals}
    (encodeErr : list item -> item -> option error) (render : list item -> string)
    (ys : list yamlDoc) (st : rstate) :
  (forall encoded o, encodeErr encoded o = None) ->
  Forall (fun y => distinctKeys (val y) /\
                   forall s, s ∈ stringsOf (val y) ->
                     resolvedImages st.1 !! s = None /\
                     is_ok (NewTag s StrictValidation) = false) ys ->
  exists st',
    resolveYAML resolveString encodeErr render (documents ys) st =
      (st', inr (render (List.filter notNil (val <$> ys)))) /\
    resolvedImages st'.1 = resolvedImages st.1 /\
    env st'.2 = env st.2 /\
    fetches (calls st'.2) = fetches (calls st.2) /\
    numDocs st'.1 = numDocs st.1 + List.length (List.filter notNil (val <$> ys)).
Proof.
  intros Henc Hall.
  destruct (resolveYAMLLoop_default_unchanged encodeErr ys [] st Henc Hall)
    as (st' & H & Hrest).
  exists st'. unfold resolveYAML. rewrite H. by split.
Qed.

Lemma resolveYAML_default_passes_non_image_stream_witness :
  let ys := [docOf (IMap [(IStr "kind", IStr "Service")]); zeroDoc; docOf (IInt 7)] in
  exists st',
    resolveYAML (X := Fake.externals) resolveString (fun _ _ => None)
      (fun l => Join ((fun _ => "doc") <$> l) "-") (documents ys) Fake.emptyState
    = (st', inr "doc-doc") /\
    numDocs st'.1 = 2.
Proof.
  intros ys.
  destruct (resolveYAML_default_passes_non_image_stream (X := Fake.externals)
              (fun _ _ => None) (fun l => Join ((fun _ => "doc") <$> l) "-") ys Fake.emptyState)
    as (st' & H & _ & _ & _ & Hn).
  - done.
  - repeat constructor; simpl; auto; try (repeat constructor; set_solver);
      intros s Hs; (assert (s = "kind" \/ s = "Service") as [-> | ->] by set_solver);
      split; reflexivity.
  - exists st'. split; [exact H|exact Hn].
Defined.
